(** * Automated guided remediation: the convergence loop and the strategy selector

    A shallow embedding of [scripts/examples/auto_guided_remediation.py],
    followed by one of the comparison part of
    [scripts/generators/generate-alpine-versions.py].

    The script drives three external programs ([git], [osv-scanner fix] and
    [npm]) through [subprocess].  They are modelled as operations on an
    abstract [World]: every call takes the world before it and returns the
    world after it together with what the script observes (an exit status, or
    the captured output).  Every program is taken to start; what it does
    then, and how it exits, is up to the environment.

    [run_loop] is a [while True]: the model runs it for a given number of
    rounds and says so when they are used up.  The [print] calls inside
    [run_loop] do not influence its control flow and are left out; the final
    report is kept as the list of lines it prints.

    Python [int] is [Z]; Python [str] is [string], read as text over the code
    points below 256. *)

From Stdlib Require Import ZArith List String Ascii Bool Lia DecimalString.
From Stdlib Require DecimalPos DecimalZ.
Import ListNotations.

Local Open Scope Z_scope.

(** ** Text: the string operations and the three regular expressions *)

Module PyText.

Definition newline : ascii := "010"%char.
Definition comma : ascii := ","%char.

(** [s.startswith(p)], returning what follows the prefix. *)
Fixpoint strip_prefix (p s : string) : option string :=
  match p, s with
  | EmptyString, _ => Some s
  | String a p', String b s' =>
      if Ascii.eqb a b then strip_prefix p' s' else None
  | String _ _, EmptyString => None
  end.

(** [s.split(sep)] for a one-character separator. *)
Fixpoint split_on (sep : ascii) (s : string) : list string :=
  match s with
  | EmptyString => [EmptyString]
  | String c s' =>
      if Ascii.eqb c sep then EmptyString :: split_on sep s'
      else match split_on sep s' with
           | [] => [String c EmptyString]
           | field :: fields => String c field :: fields
           end
  end.

(** [sep.join(fields)]. *)
Fixpoint join (sep : ascii) (fields : list string) : string :=
  match fields with
  | [] => EmptyString
  | [field] => field
  | field :: rest => (field ++ String sep (join sep rest))%string
  end.

(** [\s] of a [str] pattern, on the code points below 256: the ASCII
    whitespace [ \t\n\r\f\v], the separators U+001C..U+001F, NEL (U+0085)
    and the no-break space (U+00A0). *)
Definition is_space (c : ascii) : bool :=
  let n := N_of_ascii c in
  ((9 <=? n) && (n <=? 13) || (28 <=? n) && (n <=? 32)
   || (n =? 133) || (n =? 160))%N.

(** [\d] of a [str] pattern, on the code points below 256: the digits 0-9. *)
Definition is_digit (c : ascii) : bool :=
  let n := N_of_ascii c in ((48 <=? n) && (n <=? 57))%N.

Definition digit_value (c : ascii) : Z := Z.of_N (N_of_ascii c) - 48.

(** What is left after a greedy [\s*]. *)
Fixpoint skip_spaces (s : string) : string :=
  match s with
  | String c s' => if is_space c then skip_spaces s' else s
  | EmptyString => s
  end.

(** The text a greedy [\d*] takes. *)
Fixpoint take_digits (s : string) : string :=
  match s with
  | String c s' => if is_digit c then String c (take_digits s') else EmptyString
  | EmptyString => EmptyString
  end.

(** [int(digits)] for a string of decimal digits. *)
Definition int_of_digits (digits : string) : Z :=
  fold_left (fun acc c => 10 * acc + digit_value c) (list_ascii_of_string digits) 0.

(** [str(n)] for an [int]. *)
Definition str (n : Z) : string := NilZero.string_of_int (Z.to_int n).

(** [x or ''] for an optional string. *)
Definition or_empty (x : option string) : string :=
  match x with
  | Some s => s
  | None => EmptyString
  end.

(** [os.path.join(a, b)] on POSIX for a relative [b]. *)
Fixpoint ends_with_sep (a : string) : bool :=
  match a with
  | EmptyString => false
  | String c EmptyString => Ascii.eqb c "/"%char
  | String _ rest => ends_with_sep rest
  end.

Definition path_join (a b : string) : string :=
  if String.eqb a EmptyString || ends_with_sep a then (a ++ b)%string
  else (a ++ "/" ++ b)%string.

(** *** The [re.finditer] call of [run_fix], group 1 of every match

    The pattern is the literal [UPGRADED-PACKAGE: ] followed by three
    comma-separated groups, each a greedy run of any characters but a
    newline.  The literal part holds no newline, so a match lies within one
    line.  Anchored after the literal, the groups need two commas in the
    rest of the line; being greedy, the last group runs to the end of the
    line and group 1 ends at the last comma but one.  A match therefore
    consumes the rest of its line and the scan resumes on the next line:
    each line gives at most its leftmost match. *)

Definition UPGRADED_PACKAGE : string := "UPGRADED-PACKAGE: ".

(** Group 1 of the three greedy groups matched against the rest of a line. *)
Definition first_group (rest : string) : option string :=
  let fields := split_on comma rest in
  if (3 <=? List.length fields)%nat
  then Some (join comma (removelast (removelast fields)))
  else None.

Definition upgraded_at (line : string) : option string :=
  match strip_prefix UPGRADED_PACKAGE line with
  | Some rest => first_group rest
  | None => None
  end.

(** The leftmost position of a line at which the pattern matches. *)
Fixpoint upgraded_in_line (line : string) : option string :=
  match upgraded_at line with
  | Some name => Some name
  | None =>
      match line with
      | EmptyString => None
      | String _ line' => upgraded_in_line line'
      end
  end.

Definition find_upgraded (output : string) : list string :=
  flat_map (fun line => match upgraded_in_line line with
                        | Some name => [name]
                        | None => []
                        end)
           (split_on newline output).

(** *** The two [re.search] calls of [run_fix] and [int(match.group(1))]

    The pattern is a literal marker, any whitespace (greedy), and a group of
    one or more digits (greedy).  Whitespace and digits are disjoint, so at
    a position where the marker matches, the whitespace run is taken whole
    and the match succeeds exactly when a digit follows; the group is then
    the whole run of digits. *)

Definition count_at (marker s : string) : option Z :=
  match strip_prefix marker s with
  | Some rest =>
      let digits := take_digits (skip_spaces rest) in
      if String.eqb digits EmptyString then None
      else Some (int_of_digits digits)
  | None => None
  end.

Fixpoint search_count (marker output : string) : option Z :=
  match count_at marker output with
  | Some n => Some n
  | None =>
      match output with
      | EmptyString => None
      | String _ output' => search_count marker output'
      end
  end.

End PyText.

(** ** The external programs *)

(** What [subprocess.check_output(cmd, text=True)] gives: the captured
    standard output, or the [CalledProcessError] it raises when the exit
    status is not zero, which carries the status and the captured streams. *)
Inductive check_output_result : Type :=
| Output (stdout : string)
| CalledProcessError (returncode : Z) (stdout stderr : option string).

(** The programs the script runs. [git_checkout] is
    [git checkout package.json package-lock.json] in the project directory,
    [osv_scanner_fix cmd] runs the command line [cmd], [npm_ci] and
    [npm_run_test] are the install and test commands; the three of them
    that go through [subprocess.call] or [check_call] give an exit status. *)
Record Environment (World : Type) : Type := {
  git_checkout : World -> World * Z;
  osv_scanner_fix : list string -> World -> World * check_output_result;
  npm_ci : World -> World * Z;
  npm_run_test : World -> World * Z
}.

Arguments git_checkout {World}.
Arguments osv_scanner_fix {World}.
Arguments npm_ci {World}.
Arguments npm_run_test {World}.

(** The exception that escapes the script: [subprocess.check_call] of the
    checkout raises [CalledProcessError] on a non-zero status and nothing
    catches it. *)
Inductive error : Type :=
| CheckoutFailed (returncode : Z).

(** How a call ends: it returns, it raises, or the model ran out of rounds. *)
Inductive outcome (A : Type) : Type :=
| Returned (a : A)
| Raised (e : error)
| OutOfFuel.

Arguments Returned {A}.
Arguments Raised {A}.
Arguments OutOfFuel {A}.

(** [sys.maxsize] of a 64-bit CPython. *)
Definition sys_maxsize : Z := 2 ^ 63 - 1.

Definition PATCH_STRATEGIES : list (list string) :=
  [ ["--strategy=in-place"%string]; ["--strategy=relock"%string] ].

(** [x in xs] on lists of strings. *)
Definition contains (xs : list string) (x : string) : bool :=
  existsb (String.eqb x) xs.

(** [xs == ys] on lists of strings. *)
Fixpoint list_eqb (xs ys : list string) : bool :=
  match xs, ys with
  | [], [] => true
  | x :: xs', y :: ys' => String.eqb x y && list_eqb xs' ys'
  | _, _ => false
  end.

(** What [run_fix] returns: the upgraded packages, the remaining and the
    unfixable vulnerability counts. *)
Definition fix_summary : Type := list string * option Z * option Z.

(** The local variables of [run_loop]. *)
Record RunState : Type := {
  applied_changes : list string;
  blocklist_entries : list string;
  n_patches : Z;
  remaining_vulns : option Z;
  total_unfixable : option Z
}.

(** How one pass through the body of [while True] ends. *)
Inductive round : Type :=
| Continue (st : RunState)
| Break (st : RunState)
| Abort (e : error).

(** The module-level accumulators of the strategy loop. *)
Record Best : Type := {
  best_strategy : option (list string);
  best_changes : list string;
  best_blocklist : list string;
  best_remaining : Z;
  best_unfixable : option Z
}.

(** The lines of the final report, one constructor per [print] call. *)
Inductive report_line : Type :=
| BlankLine
| CompletedHeader
| BestStrategyLine (strategy : option (list string))
| PackageLine (name : string)
| CannotUpgradeHeader
| RemainLine (count : Z)
| UnfixableLine (count : Z).

Section Controller.

Context {World : Type}.
Variable env : Environment World.
Variable DIRECTORY : string.
Variable OSV_FIX_ARGS : list string.

Definition MANIFEST : string := PyText.path_join DIRECTORY "package.json".
Definition LOCKFILE : string := PyText.path_join DIRECTORY "package-lock.json".

(** The command line [run_fix] builds. *)
Definition fix_command (n_patches : Z) (blocklist fix_strategy : list string)
  : list string :=
  let cmd :=
    (["osv-scanner"; "fix"; "-M"; MANIFEST; "-L"; LOCKFILE]%string
       ++ OSV_FIX_ARGS ++ fix_strategy)%list in
  let cmd :=
    if n_patches =? 0 then cmd
    else (cmd ++ ["--apply-top"%string; PyText.str n_patches])%list in
  (cmd ++ flat_map
     (fun package_name =>
        ["--upgrade-config"%string; (package_name ++ ":none")%string])
     blocklist)%list.

(** The markers [run_fix] reads from the captured output. *)
Definition parse_output (output : string) : fix_summary :=
  (PyText.find_upgraded output,
   PyText.search_count "REMAINING-VULNS:" output,
   PyText.search_count "UNFIXABLE-VULNS:" output).

(** The text [run_fix] parses: the output of a successful call, or the
    streams the exception of a failed one carries. *)
Definition captured_output (res : check_output_result) : string :=
  match res with
  | Output stdout => stdout
  | CalledProcessError _ stdout stderr =>
      (PyText.or_empty stdout ++ PyText.or_empty stderr)%string
  end.

Definition run_fix (n_patches : Z) (blocklist fix_strategy : list string)
    (w : World) : World * (error + fix_summary) :=
  let (w1, status) := git_checkout env w in
  if status =? 0 then
    let (w2, res) :=
      osv_scanner_fix env (fix_command n_patches blocklist fix_strategy) w1 in
    (w2, inr (parse_output (captured_output res)))
  else (w1, inl (CheckoutFailed status)).

Definition initial_state : RunState :=
  {| applied_changes := [];
     blocklist_entries := [];
     n_patches := 0;
     remaining_vulns := None;
     total_unfixable := None |}.

(** One pass through the body of the [while True] of [run_loop]. *)
Definition loop_body (fix_strategy : list string) (st : RunState) (w : World)
  : World * round :=
  let (w1, fixed) :=
    run_fix (n_patches st) (blocklist_entries st) fix_strategy w in
  match fixed with
  | inl e => (w1, Abort e)
  | inr (candidate_changes, remaining, unfixable_vulns) =>
      if list_eqb candidate_changes (applied_changes st) then
        (w1, Break {| applied_changes := applied_changes st;
                      blocklist_entries := blocklist_entries st;
                      n_patches := n_patches st;
                      remaining_vulns := remaining;
                      total_unfixable := total_unfixable st |})
      else
        let (w2, install_failed) := npm_ci env w1 in
        let (w3, tests_failed) := npm_run_test env w2 in
        if negb (install_failed =? 0) || negb (tests_failed =? 0) then
          if n_patches st =? 0 then
            (w3, Continue {| applied_changes := applied_changes st;
                             blocklist_entries := blocklist_entries st;
                             n_patches := n_patches st + 1;
                             remaining_vulns := remaining;
                             total_unfixable := unfixable_vulns |})
          else
            (w3, Continue
                   {| applied_changes := applied_changes st;
                      blocklist_entries :=
                        blocklist_entries st
                          ++ filter (fun upgrade =>
                                       negb (contains (applied_changes st) upgrade))
                                    candidate_changes;
                      n_patches := n_patches st;
                      remaining_vulns := remaining;
                      total_unfixable := total_unfixable st |})
        else
          if n_patches st =? 0 then
            (w3, Break {| applied_changes := candidate_changes;
                          blocklist_entries := blocklist_entries st;
                          n_patches := n_patches st;
                          remaining_vulns := remaining;
                          total_unfixable := total_unfixable st |})
          else
            (w3, Continue {| applied_changes := candidate_changes;
                             blocklist_entries := blocklist_entries st;
                             n_patches := n_patches st + 1;
                             remaining_vulns := remaining;
                             total_unfixable := total_unfixable st |})
  end.

(** The [while True] loop, for at most [fuel] rounds. *)
Fixpoint loop (fuel : nat) (fix_strategy : list string) (st : RunState)
    (w : World) : World * outcome RunState :=
  match fuel with
  | O => (w, OutOfFuel)
  | S fuel' =>
      match loop_body fix_strategy st w with
      | (w', Continue st') => loop fuel' fix_strategy st' w'
      | (w', Break st') => (w', Returned st')
      | (w', Abort e) => (w', Raised e)
      end
  end.

(** The tuple [run_loop] returns. *)
Definition loop_result : Type :=
  list string * option Z * option Z * list string.

Definition result_of (st : RunState) : loop_result :=
  (applied_changes st, remaining_vulns st, total_unfixable st,
   blocklist_entries st).

Definition run_loop (fuel : nat) (fix_strategy : list string) (w : World)
  : World * outcome loop_result :=
  match loop fuel fix_strategy initial_state w with
  | (w', Returned st) => (w', Returned (result_of st))
  | (w', Raised e) => (w', Raised e)
  | (w', OutOfFuel) => (w', OutOfFuel)
  end.

(** The state and the world at the start of round [k] of a run, when the
    run gets that far. *)
Fixpoint state_at (k : nat) (fix_strategy : list string) (st : RunState)
    (w : World) : option (World * RunState) :=
  match k with
  | O => Some (w, st)
  | S k' =>
      match loop_body fix_strategy st w with
      | (w', Continue st') => state_at k' fix_strategy st' w'
      | _ => None
      end
  end.

(** Install and test as a round runs them, one after the other: the world
    after both and whether both exit statuses are zero. *)
Definition validate (w1 : World) : World * bool :=
  let (w2, install_failed) := npm_ci env w1 in
  let (w3, tests_failed) := npm_run_test env w2 in
  (w3, (install_failed =? 0) && (tests_failed =? 0)).

(** The rounds of [run_loop] as a step relation: [step s st w w' r] when a
    round started in state [st] and world [w] under strategy [s] ends in
    world [w'] with [r]. *)
Inductive step (s : list string) (st : RunState) (w : World)
  : World -> round -> Prop :=
| step_abort w1 e :
    run_fix (n_patches st) (blocklist_entries st) s w = (w1, inl e) ->
    step s st w w1 (Abort e)
| step_fixed_point w1 c rem unf :
    run_fix (n_patches st) (blocklist_entries st) s w = (w1, inr (c, rem, unf)) ->
    c = applied_changes st ->
    step s st w w1
      (Break {| applied_changes := applied_changes st;
                blocklist_entries := blocklist_entries st;
                n_patches := n_patches st;
                remaining_vulns := rem;
                total_unfixable := total_unfixable st |})
| step_accept_all w1 c rem unf w3 :
    run_fix (n_patches st) (blocklist_entries st) s w = (w1, inr (c, rem, unf)) ->
    c <> applied_changes st ->
    validate w1 = (w3, true) ->
    n_patches st = 0 ->
    step s st w w3
      (Break {| applied_changes := c;
                blocklist_entries := blocklist_entries st;
                n_patches := n_patches st;
                remaining_vulns := rem;
                total_unfixable := total_unfixable st |})
| step_accept_grow w1 c rem unf w3 :
    run_fix (n_patches st) (blocklist_entries st) s w = (w1, inr (c, rem, unf)) ->
    c <> applied_changes st ->
    validate w1 = (w3, true) ->
    n_patches st <> 0 ->
    step s st w w3
      (Continue {| applied_changes := c;
                   blocklist_entries := blocklist_entries st;
                   n_patches := n_patches st + 1;
                   remaining_vulns := rem;
                   total_unfixable := total_unfixable st |})
| step_probe_failed w1 c rem unf w3 :
    run_fix (n_patches st) (blocklist_entries st) s w = (w1, inr (c, rem, unf)) ->
    c <> applied_changes st ->
    validate w1 = (w3, false) ->
    n_patches st = 0 ->
    step s st w w3
      (Continue {| applied_changes := applied_changes st;
                   blocklist_entries := blocklist_entries st;
                   n_patches := n_patches st + 1;
                   remaining_vulns := rem;
                   total_unfixable := unf |})
| step_blocklist w1 c rem unf w3 :
    run_fix (n_patches st) (blocklist_entries st) s w = (w1, inr (c, rem, unf)) ->
    c <> applied_changes st ->
    validate w1 = (w3, false) ->
    n_patches st <> 0 ->
    step s st w w3
      (Continue {| applied_changes := applied_changes st;
                   blocklist_entries :=
                     blocklist_entries st
                       ++ filter (fun upgrade =>
                                    negb (contains (applied_changes st) upgrade))
                                 c;
                   n_patches := n_patches st;
                   remaining_vulns := rem;
                   total_unfixable := total_unfixable st |}).

(** The candidates the acquisition of a round returns. *)
Definition candidates_at (s : list string) (st : RunState) (w : World)
  : option (list string) :=
  match snd (run_fix (n_patches st) (blocklist_entries st) s w) with
  | inr (c, _, _) => Some c
  | inl _ => None
  end.

(** The loop ends, by a return or by an exception, within some number of
    rounds. *)
Definition terminates (s : list string) (st : RunState) (w : World) : Prop :=
  exists fuel w' o, loop fuel s st w = (w', o) /\ o <> OutOfFuel.

(** ** The strategy selector *)

Definition initial_best : Best :=
  {| best_strategy := None;
     best_changes := [];
     best_blocklist := [];
     best_remaining := sys_maxsize;
     best_unfixable := None |}.

(** The body of [for strategy_args in PATCH_STRATEGIES] after the call of
    [run_loop]. *)
Definition consider (best : Best) (strategy_args : list string)
    (result : loop_result) : Best :=
  let '(strategy_changes, strategy_remaining, strategy_unfixable,
        strategy_blocklist) := result in
  match strategy_changes, strategy_remaining with
  | _ :: _, Some remaining =>
      if remaining <? best_remaining best then
        {| best_strategy := Some strategy_args;
           best_changes := strategy_changes;
           best_blocklist := strategy_blocklist;
           best_remaining := remaining;
           best_unfixable := strategy_unfixable |}
      else best
  | _, _ => best
  end.

(** The record the selector keeps of a strategy that wins. *)
Definition snapshot (strategy_args strategy_changes : list string)
    (remaining : Z) (strategy_unfixable : option Z)
    (strategy_blocklist : list string) : Best :=
  {| best_strategy := Some strategy_args;
     best_changes := strategy_changes;
     best_blocklist := strategy_blocklist;
     best_remaining := remaining;
     best_unfixable := strategy_unfixable |}.

(** A result improves on the best so far: it has accepted upgrades, its
    remaining count is known, and that count is strictly less than the
    best one. *)
Definition improves (best : Best) (result : loop_result) : Prop :=
  let '(strategy_changes, strategy_remaining, _, _) := result in
  strategy_changes <> []
  /\ exists remaining,
       strategy_remaining = Some remaining /\ remaining < best_remaining best.

Fixpoint select (fuel : nat) (strategies : list (list string)) (best : Best)
    (w : World) : World * outcome Best :=
  match strategies with
  | [] => (w, Returned best)
  | strategy_args :: rest =>
      match run_loop fuel strategy_args w with
      | (w', Returned result) =>
          select fuel rest (consider best strategy_args result) w'
      | (w', Raised e) => (w', Raised e)
      | (w', OutOfFuel) => (w', OutOfFuel)
      end
  end.

(** The [print] calls after the strategy loop. *)
Definition final_report (best : Best) : list report_line :=
  [BlankLine; CompletedHeader; BestStrategyLine (best_strategy best)]
    ++ map PackageLine (best_changes best)
    ++ [CannotUpgradeHeader]
    ++ map PackageLine (best_blocklist best)
    ++ [BlankLine; RemainLine (best_remaining best)]
    ++ match best_unfixable best with
       | Some count => if count =? 0 then [] else [UnfixableLine count]
       | None => []
       end.

(** The script from the strategy loop on. *)
Definition main (fuel : nat) (w : World) : World * outcome (list report_line) :=
  match select fuel PATCH_STRATEGIES initial_best w with
  | (w', Returned best) => (w', Returned (final_report best))
  | (w', Raised e) => (w', Raised e)
  | (w', OutOfFuel) => (w', OutOfFuel)
  end.

End Controller.

(** ** The measure of the convergence loop *)

(** What holds at the start of every round of incremental mode, for
    candidates given by [acquire] and drawn from [universe]: [applied] is
    empty at budget 1 and is what was acquired at the budget before
    otherwise, and the blocklist has no repetition and stays in the
    universe. *)
Definition incremental (acquire : Z -> list string -> list string)
    (universe : list string) (st : RunState) : Prop :=
  ((n_patches st = 1 /\ applied_changes st = [])
   \/ (2 <= n_patches st
       /\ applied_changes st = acquire (n_patches st - 1) (blocklist_entries st)))
  /\ NoDup (blocklist_entries st)
  /\ incl (blocklist_entries st) universe.

(** The packages still to accept plus the packages still to block. *)
Definition slack (universe : list string) (st : RunState) : nat :=
  (List.length universe - List.length (applied_changes st))
  + (List.length universe - List.length (blocklist_entries st)).

(** ** The results of the strategies *)

Section Results.

Context {World : Type}.
Variable env : Environment World.
Variable DIRECTORY : string.
Variable OSV_FIX_ARGS : list string.

(** What the calls of [run_loop] in [for strategy_args in PATCH_STRATEGIES]
    return, one after the other. *)
Fixpoint run_all (fuel : nat) (strategies : list (list string)) (w : World)
  : World * outcome (list loop_result) :=
  match strategies with
  | [] => (w, Returned [])
  | strategy_args :: rest =>
      match run_loop env DIRECTORY OSV_FIX_ARGS fuel strategy_args w with
      | (w', Returned result) =>
          match run_all fuel rest w' with
          | (w'', Returned results) => (w'', Returned (result :: results))
          | (w'', Raised e) => (w'', Raised e)
          | (w'', OutOfFuel) => (w'', OutOfFuel)
          end
      | (w', Raised e) => (w', Raised e)
      | (w', OutOfFuel) => (w', OutOfFuel)
      end
  end.

End Results.

(** The comparisons of the strategy loop on given results, in their order. *)
Definition choose (best : Best) (outcomes : list (list string * loop_result))
  : Best :=
  fold_left (fun b outcome => consider b (fst outcome) (snd outcome)) outcomes best.

(** A result can win: it has accepted upgrades and a known remaining count. *)
Definition eligible (result : loop_result) (remaining : Z) : Prop :=
  fst (fst (fst result)) <> [] /\ snd (fst (fst result)) = Some remaining.

(** ** The script around the strategy loop *)

(** How the script ends: with the usage line and [sys.exit(1)], with the
    line about the repository and [sys.exit(1)], after the final report, with
    an exception that nothing catches, or not within the rounds given. *)
Inductive script_end : Type :=
| UsageExit (line : string)
| NotRepositoryExit (line : string)
| ReportPrinted (report : list report_line)
| Uncaught (e : error)
| StillRunning.

(** The exit status of the interpreter. *)
Definition exit_status (e : script_end) : option Z :=
  match e with
  | UsageExit _ => Some 1
  | NotRepositoryExit _ => Some 1
  | ReportPrinted _ => Some 0
  | Uncaught _ => Some 1
  | StillRunning => None
  end.

Section Script.

Context {World : Type}.

(** [git -C DIRECTORY rev-parse], and the programs as they run in a project
    directory. *)
Variable git_rev_parse : string -> World -> World * Z.
Variable programs : string -> Environment World.

(** The script for [sys.argv = argv0 :: args]. *)
Definition script (argv0 : string) (args : list string) (fuel : nat) (w : World)
  : World * script_end :=
  match args with
  | [] => (w, UsageExit ("Usage: " ++ argv0 ++ " <project-directory>")%string)
  | DIRECTORY :: OSV_FIX_ARGS =>
      let (w1, status) := git_rev_parse DIRECTORY w in
      if status =? 0 then
        match main (programs DIRECTORY) DIRECTORY OSV_FIX_ARGS fuel w1 with
        | (w', Returned report) => (w', ReportPrinted report)
        | (w', Raised e) => (w', Uncaught e)
        | (w', OutOfFuel) => (w', StillRunning)
        end
      else
        (w1, NotRepositoryExit
               (DIRECTORY ++ " is not part of a git repository")%string)
  end.

End Script.

(** ** Well-formed markers *)

(** The line that reports an upgrade of [name] from one version to another,
    and texts without a given character. *)
Definition upgraded_line (name from to : string) : string :=
  ("UPGRADED-PACKAGE: " ++ name ++ "," ++ from ++ "," ++ to)%string.

Definition lacks (c : ascii) (text : string) : bool :=
  forallb (fun x => negb (Ascii.eqb x c)) (list_ascii_of_string text).

(** Lines joined into an output, each ended by a newline. *)
Fixpoint unlines (lines : list string) : string :=
  match lines with
  | [] => EmptyString
  | line :: rest => (line ++ String PyText.newline (unlines rest))%string
  end.

(** ** The generator of Alpine version fixtures

    A shallow embedding of the comparison part of
    [scripts/generators/generate-alpine-versions.py]: the lines it generates,
    the comparer with its cache, and the check of a fixture. [subprocess.run]
    and the append to the cache file are operations on the world; the
    registration of the container's stop at exit is left out. *)

Module Alpine.

Local Open Scope string_scope.
Local Open Scope Z_scope.

Inductive exception : Type :=
| RuntimeError (message : string)
| KeyError (key : string)
| ValueError.

(** What [subprocess.run(cmd, stdout=PIPE, stderr=PIPE, check=False)] gives,
    with both streams decoded. *)
Record completed : Type := {
  returncode : Z;
  stdout : string;
  stderr : string
}.

Record Programs (World : Type) : Type := {
  subprocess_run : list string -> World -> World * completed;
  cache_file_append : string -> World -> World
}.

Arguments subprocess_run {World}.
Arguments cache_file_append {World}.

(** [text.rstrip()] and [text.strip()]. *)
Fixpoint rstrip (text : string) : string :=
  match text with
  | EmptyString => EmptyString
  | String c rest =>
      match rstrip rest with
      | EmptyString =>
          if PyText.is_space c then EmptyString else String c EmptyString
      | kept => String c kept
      end
  end.

Definition strip (text : string) : string := rstrip (PyText.skip_spaces text).

(** [text.startswith(p)]. *)
Definition startswith (text p : string) : bool :=
  match PyText.strip_prefix p text with
  | Some _ => true
  | None => false
  end.

Definition UNSUPPORTED_COMPARISONS : list string := [].

Definition is_unsupported_comparison (line : string) : bool :=
  contains UNSUPPORTED_COMPARISONS line.

Definition uncomment (line : string) : string :=
  match PyText.strip_prefix "#" line with
  | Some rest => rest
  | None =>
      match PyText.strip_prefix "//" line with
      | Some rest => rest
      | None => line
      end
  end.

(** A [dict] from strings to booleans: [d.get(key)] and [d[key] = value]. *)
Fixpoint dict_get (key : string) (d : list (string * bool)) : option bool :=
  match d with
  | [] => None
  | (k, v) :: rest => if String.eqb k key then Some v else dict_get key rest
  end.

Fixpoint dict_set (key : string) (value : bool) (d : list (string * bool))
  : list (string * bool) :=
  match d with
  | [] => [(key, value)]
  | (k, v) :: rest =>
      if String.eqb k key then (k, value) :: rest
      else (k, v) :: dict_set key value rest
  end.

(** The attributes of [AlpineVersionComparer]. *)
Record Comparer : Type := {
  cache : list (string * bool);
  alpine_version : string;
  compare_method : string;
  docker_container : option string
}.

(** [str(result)] of a [bool]. *)
Definition str_bool (b : bool) : string := if b then "True" else "False".

(** The loop of [_load_cache] over the lines of the cache file: it gives the
    cache and the entries reported as invalid, or the [ValueError] of a line
    that does not split in two at its commas. *)
Fixpoint load_cache_from (lines : list string) (cache : list (string * bool))
    (ignored : list string) : exception + (list (string * bool) * list string) :=
  match lines with
  | [] => inr (cache, ignored)
  | line :: rest =>
      let line := strip line in
      match PyText.split_on "," line with
      | [key; result] =>
          if String.eqb result "True" then
            load_cache_from rest (dict_set key true cache) ignored
          else if String.eqb result "False" then
            load_cache_from rest (dict_set key false cache) ignored
          else
            load_cache_from rest cache (ignored ++ [line])%list
      | _ => inl ValueError
      end
  end.

Definition load_cache (lines : list string)
  : exception + (list (string * bool) * list string) :=
  load_cache_from lines [] [].

(** [AlpineVersionComparer(cache_path, how)] over the lines of the cache
    file, with the invalid entries it reports. *)
Definition init (lines : list string) (how : string)
  : exception + (Comparer * list string) :=
  match load_cache lines with
  | inl e => inl e
  | inr (cache, ignored) =>
      inr ({| cache := cache;
              alpine_version := "3.10";
              compare_method := how;
              docker_container := None |}, ignored)
  end.

(** The comparer of the script. *)
Definition alpine_comparer (lines : list string)
  : exception + (Comparer * list string) :=
  init lines "exec".

(** The lines the check prints, without their colours: a skipped unsupported
    comparison, and the result of a comparison. *)
Inductive printed : Type :=
| SkippedLine (text : string)
| ResultLine (passed : bool) (line : string).

Section Comparison.

Context {World : Type}.
Variable programs : Programs World.

Definition start_docker_container (self : Comparer) (w : World)
  : World * (exception + Comparer) :=
  match docker_container self with
  | Some _ => (w, inr self)
  | None =>
      let container_name := "alpine-" ++ alpine_version self ++ "-container" in
      let cmd := ["docker"; "run"; "--rm"; "--name"; container_name; "-d";
                  "alpine:" ++ alpine_version self; "tail"; "-f"; "/dev/null"] in
      let (w1, out) := subprocess_run programs cmd w in
      if returncode out =? 0 then
        (w1, inr {| cache := cache self;
                    alpine_version := alpine_version self;
                    compare_method := compare_method self;
                    docker_container := Some container_name |})
      else
        (w1, inl (RuntimeError ("failed to start " ++ container_name
                                ++ " container: " ++ stderr out)))
  end.

(** [_compare_command]; the container has a name once it is started. *)
Definition compare_command (self : Comparer) (a b : string) (w : World)
  : World * (exception + (Comparer * list string)) :=
  if String.eqb (compare_method self) "run" then
    (w, inr (self, ["docker"; "run"; "--rm"; "alpine:" ++ alpine_version self;
                    "apk"; "version"; "-t"; a; b]))
  else
    match start_docker_container self w with
    | (w1, inl e) => (w1, inl e)
    | (w1, inr self1) =>
        let container := match docker_container self1 with
                         | Some name => name
                         | None => EmptyString
                         end in
        (w1, inr (self1, ["docker"; "exec"; container;
                          "apk"; "version"; "-t"; a; b]))
    end.

Definition save_to_cache (self : Comparer) (key : string) (result : bool)
    (w : World) : World * Comparer :=
  (cache_file_append programs (key ++ "," ++ str_bool result ++ "
") w,
   {| cache := dict_set key result (cache self);
      alpine_version := alpine_version self;
      compare_method := compare_method self;
      docker_container := docker_container self |}).

(** [AlpineVersionComparer.compare]. *)
Definition comparer_compare (self : Comparer) (a op b : string) (w : World)
  : World * Comparer * (exception + bool) :=
  let key := a ++ " " ++ op ++ " " ++ b in
  match dict_get key (cache self) with
  | Some r => (w, self, inr r)
  | None =>
      match compare_command self a b w with
      | (w1, inl e) => (w1, self, inl e)
      | (w1, inr (self1, cmd)) =>
          let (w2, out) := subprocess_run programs cmd w1 in
          if returncode out =? 0 then
            let r := String.eqb (strip (stdout out)) op in
            let (w3, self2) := save_to_cache self1 key r w2 in
            (w3, self2, inr r)
          else
            (w2, self1,
             inl (RuntimeError ("apk did not like comparing " ++ key ++ ": "
                                ++ stderr out)))
      end
  end.

(** [compare(AlpineVersion(v1), relate, AlpineVersion(v2))]: the operator
    chosen by [relate] calls the comparer with the two version strings. *)
Definition compare (self : Comparer) (v1 relate v2 : string) (w : World)
  : World * Comparer * (exception + bool) :=
  if contains ["<"; "="; ">"] relate then comparer_compare self v1 relate v2 w
  else (w, self, inl (KeyError relate)).

(** The loop of [compare_versions], from given values of [has_any_failed]
    and of what is printed so far; it gives the lines printed and what the
    function returns or raises. *)
Fixpoint compare_versions_from (lines : list string) (select : string)
    (has_any_failed : bool) (out : list printed) (self : Comparer) (w : World)
  : World * Comparer * list printed * (exception + bool) :=
  match lines with
  | [] => (w, self, out, inr has_any_failed)
  | line :: rest =>
      let line := strip line in
      if String.eqb line "" || startswith line "#" || startswith line "//" then
        let maybe_unsupported := strip (uncomment line) in
        let out :=
          if is_unsupported_comparison maybe_unsupported
          then (out ++ [SkippedLine maybe_unsupported])%list else out in
        compare_versions_from rest select has_any_failed out self w
      else
        match PyText.split_on " " (strip line) with
        | [v1; op; v2] =>
            match compare self v1 op v2 w with
            | (w1, self1, inl e) => (w1, self1, out, inl e)
            | (w1, self1, inr r) =>
                let has_any_failed := if negb r then r else has_any_failed in
                if String.eqb select "failures" && r then
                  compare_versions_from rest select has_any_failed out self1 w1
                else if String.eqb select "successes" && negb r then
                  compare_versions_from rest select has_any_failed out self1 w1
                else
                  compare_versions_from rest select has_any_failed
                    (out ++ [ResultLine r line])%list self1 w1
            end
        | _ => (w, self, out, inl ValueError)
        end
  end.

Definition compare_versions (lines : list string) (select : string)
    (self : Comparer) (w : World)
  : World * Comparer * list printed * (exception + bool) :=
  compare_versions_from lines select false [] self w.

End Comparison.

(** The loop of [generate_version_compares] after its first element. *)
Fixpoint compares_after (previous : string) (versions : list string)
  : list string :=
  match versions with
  | [] => []
  | version :: rest =>
      let comparison := previous ++ " < " ++ version ++ "
" in
      let comparison :=
        if is_unsupported_comparison (strip comparison)
        then "# " ++ comparison else comparison in
      comparison :: compares_after version rest
  end.

Definition generate_version_compares (versions : list string) : list string :=
  match versions with
  | [] => []
  | first :: rest => compares_after first rest
  end.

(** [list(dict.fromkeys(xs))]: the elements in the order of their first
    occurrence. *)
Fixpoint fromkeys (seen xs : list string) : list string :=
  match xs with
  | [] => []
  | x :: rest =>
      if contains seen x then fromkeys seen rest
      else x :: fromkeys (x :: seen) rest
  end.

(** [generate_package_compares] on the items of the dictionary, in its
    order. *)
Definition generate_package_compares (packages : list (string * list string))
  : list string :=
  fromkeys []
    (flat_map (fun item => generate_version_compares (snd item)) packages).

(** Whether a printed line is shown under a selection: with ["failures"]
    the results of passed comparisons are left out, with ["successes"] those
    of failed ones. *)
Definition shown (select : string) (p : printed) : bool :=
  match p with
  | SkippedLine _ => true
  | ResultLine r _ =>
      negb ((String.eqb select "failures" && r)
            || (String.eqb select "successes" && negb r))
  end.

(** A version as the fixtures have them: not empty, without whitespace,
    and not starting like a comment. *)
Definition plain (version : string) : bool :=
  negb (String.eqb version "")
  && forallb (fun c => negb (PyText.is_space c)) (list_ascii_of_string version)
  && negb (startswith version "#")
  && negb (startswith version "//").

(** A text that is empty or starts with a character that is no whitespace. *)
Definition starts_plain (text : string) : Prop :=
  match text with
  | EmptyString => True
  | String c _ => PyText.is_space c = false
  end.

(** A line that the check takes for a comment or a blank. *)
Definition is_comment (line : string) : bool :=
  String.eqb (strip line) "" || startswith (strip line) "#"
  || startswith (strip line) "//".

(** A line that the check can read: a comment or a blank, or three fields
    with one of the three relations in the middle. *)
Definition checkable (line : string) : bool :=
  is_comment line
  || match PyText.split_on " " (strip (strip line)) with
     | [_; op; _] => contains ["<"; "="; ">"] op
     | _ => false
     end.

(** A comparer that holds every result another one holds. *)
Definition extends (self self' : Comparer) : Prop :=
  forall key r,
    dict_get key (cache self) = Some r -> dict_get key (cache self') = Some r.

End Alpine.

(** ** A comparer for the examples *)

Module Fixtures.

Import Alpine.
Local Open Scope string_scope.

(** Programs over a world that is the cache file, as its lines: every run
    succeeds with the given output, and a write appends its line. *)
Definition apk (answer : string) : Programs (list string) :=
  {| subprocess_run := fun _ w =>
       (w, {| returncode := 0; stdout := answer; stderr := "" |});
     cache_file_append := fun line w => (w ++ [line])%list |}.

(** Programs that fail every run. *)
Definition no_docker : Programs (list string) :=
  {| subprocess_run := fun _ w =>
       (w, {| returncode := 1; stdout := ""; stderr := "no docker" |});
     cache_file_append := fun line w => (w ++ [line])%list |}.

(** The comparer the script starts with when the cache file is empty. *)
Definition fresh : Comparer :=
  {| cache := [];
     alpine_version := "3.10";
     compare_method := "exec";
     docker_container := None |}.

(** The comparer once its container runs and one comparison is cached. *)
Definition warmed : Comparer :=
  {| cache := [("1.0 < 1.1", true)];
     alpine_version := "3.10";
     compare_method := "exec";
     docker_container := Some "alpine-3.10-container" |}.

(** A comparer that holds an answer for two comparisons. *)
Definition filled : Comparer :=
  {| cache := [("1.0 < 1.1", true); ("1.1 < 1.2", false)];
     alpine_version := "3.10";
     compare_method := "exec";
     docker_container := None |}.

End Fixtures.

(** ** Concrete environments *)

Module Scenarios.

Local Open Scope string_scope.

Definition project : string := "app".
Definition in_place : list string := ["--strategy=in-place"].

Definition upgrade_A : string := "UPGRADED-PACKAGE: pkgA,1.0.0,1.0.1
".
Definition upgrade_B : string := "UPGRADED-PACKAGE: pkgB,2.3.0,2.3.4
".

(** Programs that answer the same way every time: the checkout succeeds,
    the fixer gives [res], install and test exit with [ci] and [test]. *)
Definition constant_env (res : check_output_result) (ci test : Z)
  : Environment unit :=
  {| git_checkout := fun w => (w, 0);
     osv_scanner_fix := fun _ w => (w, res);
     npm_ci := fun w => (w, ci);
     npm_run_test := fun w => (w, test) |}.

(** What a scripted fixer call gives, and the exit statuses of the install
    and test commands run after it. *)
Record scripted_round : Type := {
  fix_result : check_output_result;
  ci_status : Z;
  test_status : Z
}.

Definition silent : scripted_round :=
  {| fix_result := Output ""; ci_status := 0; test_status := 0 |}.

(** Programs that follow a script: the world counts the fixer calls made,
    call number [k] is answered by entry [k] of the script, and by [silent]
    once the script is used up. *)
Definition scripted_env (script : list scripted_round) : Environment nat :=
  {| git_checkout := fun k => (k, 0);
     osv_scanner_fix := fun _ k => (S k, fix_result (nth k script silent));
     npm_ci := fun k => (k, ci_status (nth (pred k) script silent));
     npm_run_test := fun k => (k, test_status (nth (pred k) script silent)) |}.

(** A fixer with one upgrade to offer: it upgrades [pkgA] unless the
    command line excludes it. The world is the workspace, the packages
    upgraded since the last checkout, and the tests pass whatever it is. *)
Definition one_package_env : Environment (list string) :=
  {| git_checkout := fun _ => ([], 0);
     osv_scanner_fix := fun cmd _ =>
       if contains cmd "pkgA:none" then ([], Output "")
       else (["pkgA"], Output upgrade_A);
     npm_ci := fun w => (w, 0);
     npm_run_test := fun w => (w, 0) |}.

(** The acquisition behaviour of [one_package_env]. *)
Definition one_package (n : Z) (blocklist : list string) : list string :=
  if contains blocklist "pkgA" then [] else ["pkgA"].

(** A fixer with two upgrades, [pkgA] ranked before [pkgB], that reads its
    command line: it upgrades nothing once [pkgB] is excluded, [pkgB] alone
    when [pkgA] is excluded, [pkgA] alone under [--apply-top 1], and both
    otherwise. The world is the workspace, the packages upgraded since the
    last checkout; the install succeeds and the tests pass exactly on the
    workspace with [pkgA] alone upgraded. *)
Definition retracting_env : Environment (list string) :=
  {| git_checkout := fun _ => ([], 0);
     osv_scanner_fix := fun cmd _ =>
       if contains cmd "pkgB:none" then ([], Output "")
       else if contains cmd "pkgA:none" then (["pkgB"], Output upgrade_B)
       else if contains cmd "--apply-top" && contains cmd "1"
            then (["pkgA"], Output upgrade_A)
            else (["pkgA"; "pkgB"], Output (upgrade_A ++ upgrade_B));
     npm_ci := fun w => (w, 0);
     npm_run_test := fun w => (w, if list_eqb w ["pkgA"] then 0 else 1) |}.

(** The state in which the run on [retracting_env] stays. *)
Definition retracting_stuck : RunState :=
  {| applied_changes := ["pkgA"]; blocklist_entries := ["pkgB"]; n_patches := 2;
     remaining_vulns := None; total_unfixable := None |}.

(** The fixer always upgrades [pkgA] and the tests always fail. *)
Definition stubborn_env : Environment unit :=
  constant_env (Output upgrade_A) 0 1.

(** The fixer always upgrades [pkgA] and install and test succeed. *)
Definition eager_env : Environment unit :=
  constant_env (Output upgrade_A) 0 0.

(** As [eager_env], and the fixer reports [sys.maxsize] remaining
    vulnerabilities. *)
Definition huge_count_env : Environment unit :=
  constant_env (Output (upgrade_A ++ "REMAINING-VULNS: 9223372036854775807
")) 0 0.

(** The fixer fails and leaves no output. *)
Definition mute_failure_env : Environment unit :=
  constant_env (CalledProcessError 2 (Some "") None) 0 0.

(** A fixer that fails, with the markers of an upgrade on its output. *)
Definition failing_fixer : check_output_result :=
  CalledProcessError 1
    (Some (upgrade_A ++ "REMAINING-VULNS: 3
UNFIXABLE-VULNS: 1
"))
    None.

(** Scenario B of the design; the first call reports zero unfixable
    vulnerabilities. *)
Definition scenario_B : list scripted_round :=
  [ {| fix_result := Output (upgrade_A ++ upgrade_B ++ "REMAINING-VULNS: 0
UNFIXABLE-VULNS: 0
");
       ci_status := 0; test_status := 1 |};
    {| fix_result := Output (upgrade_A ++ "REMAINING-VULNS: 2
");
       ci_status := 0; test_status := 0 |};
    {| fix_result := Output (upgrade_A ++ "REMAINING-VULNS: 2
");
       ci_status := 0; test_status := 0 |} ].

(** Scenario C of the design: the second package breaks the tests. *)
Definition scenario_C : list scripted_round :=
  [ {| fix_result := Output (upgrade_A ++ upgrade_B ++ "UNFIXABLE-VULNS: 4
");
       ci_status := 0; test_status := 1 |};
    {| fix_result := Output upgrade_A; ci_status := 0; test_status := 0 |};
    {| fix_result := Output (upgrade_A ++ upgrade_B);
       ci_status := 0; test_status := 1 |};
    {| fix_result := Output (upgrade_A ++ "REMAINING-VULNS: 1
");
       ci_status := 0; test_status := 0 |} ].

(** A run whose last fixer call reports no remaining count, after earlier
    calls reported one. *)
Definition count_lost : list scripted_round :=
  [ {| fix_result := Output (upgrade_A ++ "REMAINING-VULNS: 5
");
       ci_status := 1; test_status := 0 |};
    {| fix_result := Output (upgrade_A ++ "REMAINING-VULNS: 5
");
       ci_status := 0; test_status := 0 |};
    {| fix_result := Output upgrade_A; ci_status := 0; test_status := 0 |} ].

(** Two strategies that each accept [pkgA] at once and leave three
    vulnerabilities. *)
Definition tie : list scripted_round :=
  [ {| fix_result := Output (upgrade_A ++ "REMAINING-VULNS: 3
");
       ci_status := 0; test_status := 0 |};
    {| fix_result := Output (upgrade_A ++ "REMAINING-VULNS: 3
");
       ci_status := 0; test_status := 0 |} ].

(** The fixer upgrades [pkgA] and reports four unfixable vulnerabilities;
    install and test succeed. *)
Definition unfixable_reported_env : Environment unit :=
  constant_env (Output (upgrade_A ++ "REMAINING-VULNS: 1
UNFIXABLE-VULNS: 4
")) 0 0.

(** The checkout fails with status 128; the other programs do not matter. *)
Definition broken_checkout_env : Environment unit :=
  {| git_checkout := fun w => (w, 128);
     osv_scanner_fix := fun _ w => (w, Output upgrade_A);
     npm_ci := fun w => (w, 0);
     npm_run_test := fun w => (w, 0) |}.

(** [git rev-parse] succeeds in the directory [app] only. *)
Definition rev_parse_app (directory : string) (w : unit) : unit * Z :=
  (w, if String.eqb directory "app" then 0 else 128).

(** States of the runs above. *)
Definition eager_final : RunState :=
  {| applied_changes := ["pkgA"]; blocklist_entries := []; n_patches := 0;
     remaining_vulns := None; total_unfixable := None |}.

Definition scenario_B_final : RunState :=
  {| applied_changes := ["pkgA"]; blocklist_entries := []; n_patches := 2;
     remaining_vulns := Some 2; total_unfixable := Some 0 |}.

Definition scenario_C_round2 : RunState :=
  {| applied_changes := ["pkgA"]; blocklist_entries := []; n_patches := 2;
     remaining_vulns := None; total_unfixable := Some 4 |}.

Definition scenario_C_round3 : RunState :=
  {| applied_changes := ["pkgA"]; blocklist_entries := ["pkgB"]; n_patches := 2;
     remaining_vulns := None; total_unfixable := Some 4 |}.

Definition scenario_C_final : RunState :=
  {| applied_changes := ["pkgA"]; blocklist_entries := ["pkgB"]; n_patches := 2;
     remaining_vulns := Some 1; total_unfixable := Some 4 |}.

Definition count_lost_final : RunState :=
  {| applied_changes := ["pkgA"]; blocklist_entries := []; n_patches := 2;
     remaining_vulns := None; total_unfixable := None |}.

End Scenarios.

(** ** Facts about the list and string helpers *)

Lemma list_eqb_eq (xs ys : list string) : list_eqb xs ys = true <-> xs = ys.
Proof.
  revert ys; induction xs as [|x xs IH]; intros [|y ys]; simpl;
    try (split; [discriminate | congruence]); try tauto.
  rewrite andb_true_iff, String.eqb_eq, IH.
  split; [intros [-> ->]; reflexivity | intros H; injection H; auto].
Qed.

Lemma list_eqb_neq (xs ys : list string) : list_eqb xs ys = false <-> xs <> ys.
Proof.
  rewrite <- list_eqb_eq. destruct (list_eqb xs ys); split; congruence.
Qed.

Lemma contains_In (xs : list string) (x : string) :
  contains xs x = true <-> In x xs.
Proof.
  unfold contains. rewrite existsb_exists. split.
  - intros [y [Hy Heq]]. apply String.eqb_eq in Heq. subst. assumption.
  - intros H. exists x. split; [assumption | apply String.eqb_refl].
Qed.

Lemma contains_not_In (xs : list string) (x : string) :
  contains xs x = false <-> ~ In x xs.
Proof.
  rewrite <- contains_In. destruct (contains xs x); split; congruence.
Qed.

(** The markers as [run_fix] reads them. *)

Example upgraded_markers :
  PyText.find_upgraded "resolving...
UPGRADED-PACKAGE: lodash,4.17.20,4.17.21
UPGRADED-PACKAGE: @scope/a,b,1.0.0,2.0.0
UPGRADED-PACKAGE: incomplete,1.0.0
"%string
  = ["lodash"; "@scope/a,b"]%string.
Proof. reflexivity. Qed.

Example count_markers :
  PyText.search_count "REMAINING-VULNS:" "REMAINING-VULNS: none
REMAINING-VULNS:
  007 left"%string = Some 7
  /\ PyText.search_count "UNFIXABLE-VULNS:" "REMAINING-VULNS: 3"%string = None.
Proof. split; reflexivity. Qed.

(** ** Rounds and runs *)

Section Rounds.

Context {World : Type}.
Variable env : Environment World.
Variable DIRECTORY : string.
Variable OSV_FIX_ARGS : list string.

Local Abbreviation run_fix := (run_fix env DIRECTORY OSV_FIX_ARGS).
Local Abbreviation loop_body := (loop_body env DIRECTORY OSV_FIX_ARGS).
Local Abbreviation loop := (loop env DIRECTORY OSV_FIX_ARGS).
Local Abbreviation state_at := (state_at env DIRECTORY OSV_FIX_ARGS).
Local Abbreviation step := (step env DIRECTORY OSV_FIX_ARGS).
Local Abbreviation validate := (validate env).

Lemma validate_statuses (w1 w2 w3 : World) (i t : Z) :
  npm_ci env w1 = (w2, i) -> npm_run_test env w2 = (w3, t) ->
  validate w1 = (w3, (i =? 0) && (t =? 0)).
Proof. intros Hi Ht. unfold validate. rewrite Hi, Ht. reflexivity. Qed.

(** The body of the loop and the step relation say the same. *)
Lemma loop_body_step (s : list string) (st : RunState) (w w' : World) (r : round) :
  loop_body s st w = (w', r) <-> step s st w w' r.
Proof.
  split.
  - unfold loop_body.
    destruct (run_fix (n_patches st) (blocklist_entries st) s w)
      as [w1 [e | [[c rem] unf]]] eqn:Hfix.
    + intros H; injection H as <- <-. now apply step_abort.
    + destruct (list_eqb c (applied_changes st)) eqn:Heq.
      * apply list_eqb_eq in Heq.
        intros H; injection H as <- <-. now apply step_fixed_point with c unf.
      * apply list_eqb_neq in Heq.
        destruct (npm_ci env w1) as [w2 i] eqn:Hi.
        destruct (npm_run_test env w2) as [w3 t] eqn:Ht.
        pose proof (validate_statuses _ _ _ _ _ Hi Ht) as Hv.
        rewrite <- negb_andb.
        destruct ((i =? 0) && (t =? 0)); simpl;
          destruct (n_patches st =? 0) eqn:Hn;
          (apply Z.eqb_eq in Hn || apply Z.eqb_neq in Hn);
          intros H; injection H as <- <-.
        -- now apply step_accept_all with w1 unf.
        -- now apply step_accept_grow with w1 unf.
        -- now apply step_probe_failed with w1 c.
        -- now apply step_blocklist with w1 unf.
  - intros H. unfold loop_body.
    destruct H as [w1 e Hfix | w1 c rem unf Hfix Hc | w1 c rem unf w3 Hfix Hc Hv Hn
                  | w1 c rem unf w3 Hfix Hc Hv Hn | w1 c rem unf w3 Hfix Hc Hv Hn
                  | w1 c rem unf w3 Hfix Hc Hv Hn];
      rewrite Hfix; try reflexivity.
    + apply list_eqb_eq in Hc. rewrite Hc. reflexivity.
    + apply list_eqb_neq in Hc. rewrite Hc.
      unfold validate in Hv.
      destruct (npm_ci env w1) as [w2 i], (npm_run_test env w2) as [w3' t].
      injection Hv as -> Hv. rewrite <- negb_andb, Hv. simpl.
      apply Z.eqb_eq in Hn. rewrite Hn. reflexivity.
    + apply list_eqb_neq in Hc. rewrite Hc.
      unfold validate in Hv.
      destruct (npm_ci env w1) as [w2 i], (npm_run_test env w2) as [w3' t].
      injection Hv as -> Hv. rewrite <- negb_andb, Hv. simpl.
      apply Z.eqb_neq in Hn. rewrite Hn. reflexivity.
    + apply list_eqb_neq in Hc. rewrite Hc.
      unfold validate in Hv.
      destruct (npm_ci env w1) as [w2 i], (npm_run_test env w2) as [w3' t].
      injection Hv as -> Hv. rewrite <- negb_andb, Hv. simpl.
      apply Z.eqb_eq in Hn. rewrite Hn. reflexivity.
    + apply list_eqb_neq in Hc. rewrite Hc.
      unfold validate in Hv.
      destruct (npm_ci env w1) as [w2 i], (npm_run_test env w2) as [w3' t].
      injection Hv as -> Hv. rewrite <- negb_andb, Hv. simpl.
      apply Z.eqb_neq in Hn. rewrite Hn. reflexivity.
Qed.

(** *** Runs as sequences of rounds *)

Lemma state_at_snoc (k : nat) (s : list string) (st : RunState) (w : World)
    (wk : World) (stk : RunState) (w' : World) (st' : RunState) :
  state_at k s st w = Some (wk, stk) ->
  loop_body s stk wk = (w', Continue st') ->
  state_at (S k) s st w = Some (w', st').
Proof.
  revert st w. induction k as [|k IH]; intros st w Hk Hbody.
  - simpl in Hk. injection Hk as -> ->. simpl. rewrite Hbody. reflexivity.
  - change (state_at (S k) s st w) with
      (match loop_body s st w with
       | (w1, Continue st1) => state_at k s st1 w1
       | _ => None
       end) in Hk.
    change (state_at (S (S k)) s st w) with
      (match loop_body s st w with
       | (w1, Continue st1) => state_at (S k) s st1 w1
       | _ => None
       end).
    destruct (loop_body s st w) as [w1 [st1 | st1 | e]]; try discriminate.
    now apply IH.
Qed.

Lemma state_at_last (k : nat) (s : list string) (st : RunState) (w : World)
    (w' : World) (st' : RunState) :
  state_at (S k) s st w = Some (w', st') ->
  exists wk stk,
    state_at k s st w = Some (wk, stk) /\ loop_body s stk wk = (w', Continue st').
Proof.
  revert st w. induction k as [|k IH]; intros st w H.
  - exists w, st. split; [reflexivity|].
    simpl in H. destruct (loop_body s st w) as [w1 [st1 | st1 | e]]; try discriminate.
    congruence.
  - change (state_at (S (S k)) s st w) with
      (match loop_body s st w with
       | (w1, Continue st1) => state_at (S k) s st1 w1
       | _ => None
       end) in H.
    change (state_at (S k) s st w) with
      (match loop_body s st w with
       | (w1, Continue st1) => state_at k s st1 w1
       | _ => None
       end).
    destruct (loop_body s st w) as [w1 [st1 | st1 | e]]; try discriminate.
    now apply IH.
Qed.

(** A property of the state that every continuing round preserves holds
    at the start of every round. *)
Lemma state_at_invariant (P : RunState -> Prop) (s : list string) :
  (forall st w w' st', P st -> loop_body s st w = (w', Continue st') -> P st') ->
  forall k st w wk stk,
    P st -> state_at k s st w = Some (wk, stk) -> P stk.
Proof.
  intros Hstep. induction k as [|k IH]; intros st w wk stk HP Hk.
  - simpl in Hk. congruence.
  - apply state_at_last in Hk. destruct Hk as [wj [stj [Hj Hbody]]].
    eapply Hstep; [|exact Hbody]. eapply IH; eassumption.
Qed.

(** A run that returns does so in a round that breaks out of the loop. *)
Lemma loop_returned (fuel : nat) (s : list string) (st : RunState) (w : World)
    (w' : World) (st' : RunState) :
  loop fuel s st w = (w', Returned st') ->
  exists k wk stk,
    (k < fuel)%nat /\ state_at k s st w = Some (wk, stk)
    /\ loop_body s stk wk = (w', Break st').
Proof.
  revert st w. induction fuel as [|fuel IH]; intros st w H; simpl in H.
  - discriminate.
  - destruct (loop_body s st w) as [w1 [st1 | st1 | e]] eqn:Hbody.
    + apply IH in H. destruct H as [k [wk [stk [Hlt [Hk Hb]]]]].
      exists (S k), wk, stk. split; [lia|]. split; [|exact Hb].
      simpl. rewrite Hbody. exact Hk.
    + injection H as <- <-. exists O, w, st. repeat split; [lia | exact Hbody].
    + discriminate.
Qed.

(** Rounds [i] and [j] of a run, [i <= j]: the later one is reached from
    the earlier one. *)
Lemma state_at_le (i j : nat) (s : list string) (st : RunState) (w : World)
    (wi wj : World) (si sj : RunState) :
  (i <= j)%nat ->
  state_at i s st w = Some (wi, si) -> state_at j s st w = Some (wj, sj) ->
  state_at (j - i) s si wi = Some (wj, sj).
Proof.
  revert j st w. induction i as [|i IH]; intros j st w Hle Hi Hj.
  - simpl in Hi. injection Hi as <- <-. now rewrite Nat.sub_0_r.
  - destruct j as [|j]; [lia|]. simpl in Hi, Hj |- *.
    destruct (loop_body s st w) as [w1 [st1 | st1 | e]]; try discriminate.
    apply (IH j st1 w1); [lia | assumption | assumption].
Qed.

(** More fuel does not change how a run ends. *)
Lemma loop_more_fuel (fuel : nat) (s : list string) :
  forall st w w' o,
    loop fuel s st w = (w', o) -> o <> OutOfFuel ->
    forall extra, loop (fuel + extra) s st w = (w', o).
Proof.
  induction fuel as [|fuel IH]; intros st w w' o Hrun Ho extra; simpl in Hrun.
  - injection Hrun as _ <-. now elim Ho.
  - simpl. destruct (loop_body s st w) as [w1 [st1 | st1 | e]];
      [now apply IH | exact Hrun | exact Hrun].
Qed.

(** A run that reaches round [k] goes on from there. *)
Lemma loop_from_round (k : nat) (s : list string) :
  forall st w wk stk,
    state_at k s st w = Some (wk, stk) ->
    forall fuel, loop (k + fuel) s st w = loop fuel s stk wk.
Proof.
  induction k as [|k IH]; intros st w wk stk Hk fuel; simpl in Hk.
  - injection Hk as <- <-. reflexivity.
  - simpl. destruct (loop_body s st w) as [w1 [st1 | st1 | e]]; try discriminate.
    now apply IH.
Qed.

(** A round that continues in the state and the world it started from
    repeats for ever. *)
Lemma cycle_runs_forever (s : list string) (st : RunState) (w : World) :
  loop_body s st w = (w, Continue st) ->
  forall fuel, loop fuel s st w = (w, OutOfFuel).
Proof.
  intros Hbody. induction fuel as [|fuel IH]; simpl; [reflexivity|].
  rewrite Hbody. exact IH.
Qed.

(** *** What a round does to the state *)

Ltac invert_step H :=
  apply loop_body_step in H; inversion H; subst; clear H; simpl in *.

Lemma blocklist_extended (s : list string) (st : RunState) (w w' : World)
    (st' : RunState) :
  loop_body s st w = (w', Continue st') ->
  exists added, blocklist_entries st' = blocklist_entries st ++ added.
Proof.
  intros H. invert_step H.
  - exists []. now rewrite app_nil_r.
  - exists []. now rewrite app_nil_r.
  - eexists. reflexivity.
Qed.

Lemma budget_positive_after (s : list string) (st : RunState) (w w' : World)
    (st' : RunState) :
  0 <= n_patches st ->
  loop_body s st w = (w', Continue st') -> 1 <= n_patches st'.
Proof. intros Hn H. invert_step H; lia. Qed.

Lemma incremental_keeps_unfixable (s : list string) (st : RunState)
    (w w' : World) (st' : RunState) :
  1 <= n_patches st ->
  loop_body s st w = (w', Continue st') ->
  1 <= n_patches st' /\ total_unfixable st' = total_unfixable st.
Proof. intros Hn H. invert_step H; (split; [lia | reflexivity]) || lia. Qed.

(** C4: when validation fails with [n >= 1], the round appends to the
    blocklist exactly the candidates that are not in [applied], in their
    order, and leaves [n] as it is; and along a run the blocklist of an
    earlier round is a prefix, hence a subset, of the blocklist of every
    later round. *)
Theorem blocklist_grows_on_failure :
  (forall s st w w1 c rem unf w3,
      run_fix (n_patches st) (blocklist_entries st) s w = (w1, inr (c, rem, unf)) ->
      c <> applied_changes st ->
      validate w1 = (w3, false) ->
      1 <= n_patches st ->
      exists st',
        loop_body s st w = (w3, Continue st')
        /\ blocklist_entries st' =
             blocklist_entries st
               ++ filter (fun upgrade => negb (contains (applied_changes st) upgrade)) c
        /\ (forall x, In x (blocklist_entries st') <->
                        In x (blocklist_entries st)
                        \/ (In x c /\ ~ In x (applied_changes st)))
        /\ n_patches st' = n_patches st)
  /\ (forall s st w i j wi si wj sj,
         (i <= j)%nat ->
         state_at i s st w = Some (wi, si) ->
         state_at j s st w = Some (wj, sj) ->
         (exists added, blocklist_entries sj = blocklist_entries si ++ added)
         /\ incl (blocklist_entries si) (blocklist_entries sj)).
Proof.
  split.
  - intros s st w w1 c rem unf w3 Hfix Hc Hv Hn.
    eexists. split.
    + apply loop_body_step. apply step_blocklist with (w1 := w1) (c := c) (rem := rem) (unf := unf);
        [assumption .. | lia].
    + simpl. split; [reflexivity|]. split; [|reflexivity].
      intros x. rewrite in_app_iff, filter_In, negb_true_iff, contains_not_In.
      tauto.
  - intros s st w i j wi si wj sj Hle Hi Hj.
    pose proof (state_at_le i j s st w wi wj si sj Hle Hi Hj) as Hreach.
    assert (Hpre : exists added, blocklist_entries sj = blocklist_entries si ++ added).
    { apply (state_at_invariant
               (fun st0 => exists added,
                    blocklist_entries st0 = blocklist_entries si ++ added) s)
        with (k := (j - i)%nat) (st := si) (w := wi) (wk := wj).
      - intros st0 w0 w0' st0' [added Hadd] Hbody.
        destruct (blocklist_extended _ _ _ _ _ Hbody) as [more Hmore].
        exists (added ++ more). rewrite Hmore, Hadd. now rewrite app_assoc.
      - exists []. now rewrite app_nil_r.
      - exact Hreach. }
    split; [exact Hpre|].
    destruct Hpre as [added ->]. apply incl_appl, incl_refl.
Qed.


(** A round changes [applied] only by accepting candidates that it has
    just validated. *)
Lemma round_accepts_validated (s : list string) (st : RunState) (w w' : World)
    (r : round) (st' : RunState) :
  loop_body s st w = (w', r) ->
  r = Continue st' \/ r = Break st' ->
  applied_changes st' = applied_changes st
  \/ exists w1 c rem unf,
       run_fix (n_patches st) (blocklist_entries st) s w = (w1, inr (c, rem, unf))
       /\ validate w1 = (w', true)
       /\ applied_changes st' = c.
Proof.
  intros Hbody Hr.
  apply loop_body_step in Hbody.
  destruct Hbody; destruct Hr as [Hr | Hr]; try discriminate;
    injection Hr as <-; simpl; eauto 10.
Qed.

(** C7: a round leaves [applied] as it was or sets it to the candidates of
    that round after install and test both succeeded on them; so at the
    start of every round of a run, and when the run returns, [applied] is
    empty or is a candidate set that an earlier round validated. *)
Theorem applied_only_after_validation :
  (forall s st w w' r st',
      loop_body s st w = (w', r) ->
      r = Continue st' \/ r = Break st' ->
      applied_changes st' = applied_changes st
      \/ exists w1 c rem unf,
           run_fix (n_patches st) (blocklist_entries st) s w = (w1, inr (c, rem, unf))
           /\ validate w1 = (w', true)
           /\ applied_changes st' = c)
  /\ (forall s w k wk stk,
         state_at k s initial_state w = Some (wk, stk) ->
         applied_changes stk = []
         \/ exists j wj stj w1 c rem unf w3,
              (j < k)%nat
              /\ state_at j s initial_state w = Some (wj, stj)
              /\ run_fix (n_patches stj) (blocklist_entries stj) s wj
                 = (w1, inr (c, rem, unf))
              /\ validate w1 = (w3, true)
              /\ applied_changes stk = c)
  /\ (forall fuel s w w' st',
         loop fuel s initial_state w = (w', Returned st') ->
         applied_changes st' = []
         \/ exists j wj stj w1 c rem unf,
              state_at j s initial_state w = Some (wj, stj)
              /\ run_fix (n_patches stj) (blocklist_entries stj) s wj
                 = (w1, inr (c, rem, unf))
              /\ (exists w3, validate w1 = (w3, true))
              /\ applied_changes st' = c).
Proof.
  assert (Hreach : forall s w k wk stk,
             state_at k s initial_state w = Some (wk, stk) ->
             applied_changes stk = []
             \/ exists j wj stj w1 c rem unf w3,
                  (j < k)%nat
                  /\ state_at j s initial_state w = Some (wj, stj)
                  /\ run_fix (n_patches stj) (blocklist_entries stj) s wj
                     = (w1, inr (c, rem, unf))
                  /\ validate w1 = (w3, true)
                  /\ applied_changes stk = c).
  { intros s w. induction k as [|k IH]; intros wk stk Hk.
    - simpl in Hk. injection Hk as <- <-. now left.
    - apply state_at_last in Hk. destruct Hk as [wj [stj [Hj Hbody]]].
      destruct (round_accepts_validated _ _ _ _ _ stk Hbody (or_introl eq_refl))
        as [Hsame | [w1 [c [rem [unf [Hfix [Hv Hc]]]]]]].
      + rewrite Hsame.
        destruct (IH _ _ Hj)
          as [Hnil | [j [wj' [stj' [w1 [c [rem [unf [w3 [Hlt H]]]]]]]]]];
          [now left | right].
        exists j, wj', stj', w1, c, rem, unf, w3. split; [lia | exact H].
      + right. exists k, wj, stj, w1, c, rem, unf, wk. auto. }
  split; [exact round_accepts_validated|]. split; [exact Hreach|].
  intros fuel s w w' st' Hrun.
  apply loop_returned in Hrun. destruct Hrun as [k [wk [stk [_ [Hk Hbreak]]]]].
  destruct (round_accepts_validated _ _ _ _ _ st' Hbreak (or_intror eq_refl))
    as [Hsame | [w1 [c [rem [unf [Hfix [Hv Hc]]]]]]].
  - rewrite Hsame.
    destruct (Hreach _ _ _ _ _ Hk)
      as [Hnil | [j [wj [stj [w1 [c [rem [unf [w3 [_ [Hj [Hfix [Hv Hc]]]]]]]]]]]]];
      [now left | right].
    exists j, wj, stj, w1, c, rem, unf. eauto.
  - right. exists k, wk, stk, w1, c, rem, unf. eauto.
Qed.

(** In a run from the initial state, every round after the first starts
    with [n >= 1]. *)
Lemma budget_positive_later (s : list string) (w : World) (k : nat)
    (wk : World) (stk : RunState) :
  state_at (S k) s initial_state w = Some (wk, stk) -> 1 <= n_patches stk.
Proof.
  revert wk stk. induction k as [|k IH]; intros wk stk Hk;
    apply state_at_last in Hk; destruct Hk as [wj [stj [Hj Hbody]]].
  - simpl in Hj. injection Hj as <- <-.
    apply (budget_positive_after s initial_state w wk stk); [simpl; lia | exact Hbody].
  - apply IH in Hj.
    apply (budget_positive_after s stj wj wk stk); [lia | exact Hbody].
Qed.

(** The two ways a round breaks out of the loop. *)
Lemma break_cases (s : list string) (st : RunState) (w w' : World)
    (st' : RunState) :
  loop_body s st w = (w', Break st') ->
  exists w1 c rem unf,
    run_fix (n_patches st) (blocklist_entries st) s w = (w1, inr (c, rem, unf))
    /\ applied_changes st' = c
    /\ remaining_vulns st' = rem
    /\ ((c = applied_changes st /\ w' = w1)
        \/ (c <> applied_changes st /\ n_patches st = 0
            /\ validate w1 = (w', true))).
Proof.
  intros Hbody. apply loop_body_step in Hbody.
  remember (Break st') as r eqn:Hr.
  destruct Hbody as [w1 e Hfix | w1 c rem unf Hfix Hc | w1 c rem unf w3 Hfix Hc Hv Hn
                    | w1 c rem unf w3 Hfix Hc Hv Hn | w1 c rem unf w3 Hfix Hc Hv Hn
                    | w1 c rem unf w3 Hfix Hc Hv Hn];
    try discriminate; injection Hr as <-; simpl;
    exists w1, c, rem, unf; auto 10.
Qed.

(** C2, as the code has it: a run returns in one of two ways. Either the candidates
    of its last round equal [applied] (the fixed point), or that round is
    the first one, with [n == 0], its candidates differ from [applied] and
    pass validation, and they become [applied]. Either way [applied]
    equals the last candidates on return. *)
Theorem loop_returns_two_ways (fuel : nat) (s : list string) (w w' : World)
    (st' : RunState) :
  loop fuel s initial_state w = (w', Returned st') ->
  exists k wk stk w1 c rem unf,
    state_at k s initial_state w = Some (wk, stk)
    /\ run_fix (n_patches stk) (blocklist_entries stk) s wk = (w1, inr (c, rem, unf))
    /\ applied_changes st' = c
    /\ ((c = applied_changes stk /\ w' = w1)
        \/ (c <> applied_changes stk /\ k = O /\ n_patches stk = 0
            /\ validate w1 = (w', true))).
Proof.
  intros Hrun.
  apply loop_returned in Hrun. destruct Hrun as [k [wk [stk [_ [Hk Hbreak]]]]].
  destruct (break_cases _ _ _ _ _ Hbreak)
    as [w1 [c [rem [unf [Hfix [Happ [_ Hway]]]]]]].
  exists k, wk, stk, w1, c, rem, unf.
  split; [exact Hk|]. split; [exact Hfix|]. split; [exact Happ|].
  destruct Hway as [Hfixed | [Hc [Hn Hv]]]; [now left | right].
  split; [exact Hc|]. split; [|split; assumption].
  destruct k as [|k]; [reflexivity|].
  apply budget_positive_later in Hk. lia.
Qed.


End Rounds.

(** ** Acquisition *)

Section Acquisition.

Context {World : Type}.
Variable env : Environment World.
Variable DIRECTORY : string.
Variable OSV_FIX_ARGS : list string.

Local Abbreviation run_fix := (run_fix env DIRECTORY OSV_FIX_ARGS).
Local Abbreviation fix_command := (fix_command DIRECTORY OSV_FIX_ARGS).

Lemma parse_output_empty : parse_output EmptyString = ([], None, None).
Proof. reflexivity. Qed.


End Acquisition.

(** ** The strategy selector and the report *)



(** C9, as the code has it: the final report has the line of the unfixable count
    exactly when the count of the winning strategy is known and is not
    zero. *)
Theorem unfixable_line_reported (best : Best) (u : Z) :
  In (UnfixableLine u) (final_report best)
  <-> best_unfixable best = Some u /\ u <> 0.
Proof.
  unfold final_report. rewrite !in_app_iff, !in_map_iff. simpl.
  split.
  - intros [H | [[x [H _]] | [H | [[x [H _]] | [H | H]]]]];
      try discriminate;
      try (repeat destruct H as [H | H]; try discriminate; now elim H).
    destruct (best_unfixable best) as [count|]; [|now elim H].
    destruct (count =? 0) eqn:Hz; [now elim H|].
    apply Z.eqb_neq in Hz.
    destruct H as [H | H]; [|now elim H].
    injection H as <-. auto.
  - intros [Hu Hnz]. rewrite Hu. apply Z.eqb_neq in Hnz. rewrite Hnz.
    do 5 right. now left.
Qed.

(** ** Termination of the convergence loop *)

Section Termination.

Context {World : Type}.
Variable env : Environment World.
Variable DIRECTORY : string.
Variable OSV_FIX_ARGS : list string.
Variable s : list string.

Local Abbreviation run_fix := (run_fix env DIRECTORY OSV_FIX_ARGS).
Local Abbreviation loop_body := (loop_body env DIRECTORY OSV_FIX_ARGS).
Local Abbreviation loop := (loop env DIRECTORY OSV_FIX_ARGS).
Local Abbreviation step := (step env DIRECTORY OSV_FIX_ARGS).

(** The candidates are a function [acquire] of the budget and the
    blocklist, drawn from the packages [universe]. *)
Variable acquire : Z -> list string -> list string.
Variable universe : list string.

Hypothesis deterministic :
  forall n blocklist w w' c rem unf,
    run_fix n blocklist s w = (w', inr (c, rem, unf)) -> c = acquire n blocklist.
Hypothesis from_universe :
  forall n blocklist, 1 <= n -> incl (acquire n blocklist) universe.
Hypothesis no_duplicates :
  forall n blocklist, 1 <= n -> NoDup (acquire n blocklist).
Hypothesis blocked_excluded :
  forall n blocklist x, 1 <= n -> In x (acquire n blocklist) -> ~ In x blocklist.
Hypothesis grows_by_one :
  forall n blocklist, 1 <= n ->
    acquire (n + 1) blocklist = acquire n blocklist
    \/ exists x, acquire (n + 1) blocklist = acquire n blocklist ++ [x].
Hypothesis blocking_others :
  forall n blocklist added, 1 <= n ->
    (forall x, In x added -> ~ In x (acquire n blocklist)) ->
    acquire n (blocklist ++ added) = acquire n blocklist.

Local Abbreviation incremental := (incremental acquire universe).
Local Abbreviation slack := (slack universe).

Lemma incremental_facts (st : RunState) :
  incremental st ->
  1 <= n_patches st
  /\ NoDup (applied_changes st) /\ incl (applied_changes st) universe.
Proof.
  intros [[[Hn Ha] | [Hn Ha]] _]; rewrite Ha.
  - split; [lia|]. split; [constructor | intros x []].
  - split; [lia|]. split; [apply no_duplicates | apply from_universe]; lia.
Qed.

(** Past the first budget, the candidates are [applied] or [applied] and
    one package more. *)
Lemma candidates_shape (st : RunState) :
  2 <= n_patches st ->
  applied_changes st = acquire (n_patches st - 1) (blocklist_entries st) ->
  acquire (n_patches st) (blocklist_entries st) = applied_changes st
  \/ exists x,
       acquire (n_patches st) (blocklist_entries st) = applied_changes st ++ [x].
Proof.
  intros Hn Ha.
  pose proof (grows_by_one (n_patches st - 1) (blocklist_entries st) ltac:(lia))
    as Hgrow.
  rewrite Z.sub_add, <- Ha in Hgrow. exact Hgrow.
Qed.

(** Candidates that differ from [applied] hold a package that is not in
    [applied]. *)
Lemma candidate_outside_applied (st : RunState) :
  incremental st ->
  acquire (n_patches st) (blocklist_entries st) <> applied_changes st ->
  exists x, In x (acquire (n_patches st) (blocklist_entries st))
            /\ ~ In x (applied_changes st).
Proof.
  intros [[[Hn Ha] | [Hn Ha]] _] Hc.
  - rewrite Ha in *.
    destruct (acquire (n_patches st) (blocklist_entries st)) as [|x c];
      [now elim Hc|].
    exists x. split; [now left | intros []].
  - pose proof (no_duplicates (n_patches st) (blocklist_entries st) ltac:(lia))
      as Hnd.
    destruct (candidates_shape st Hn Ha) as [Hsame | [x Hx]]; [now elim Hc|].
    rewrite Hx in Hnd |- *. exists x. split.
    + apply in_or_app. right. now left.
    + intros Hin. apply NoDup_remove_2 in Hnd. rewrite app_nil_r in Hnd. auto.
Qed.

(** Accepted candidates are longer than [applied] was. *)
Lemma candidates_longer (st : RunState) :
  incremental st ->
  acquire (n_patches st) (blocklist_entries st) <> applied_changes st ->
  (List.length (applied_changes st)
   < List.length (acquire (n_patches st) (blocklist_entries st)))%nat.
Proof.
  intros [[[Hn Ha] | [Hn Ha]] _] Hc.
  - rewrite Ha in *.
    destruct (acquire (n_patches st) (blocklist_entries st));
      [now elim Hc | simpl; lia].
  - destruct (candidates_shape st Hn Ha) as [Hsame | [x Hx]]; [now elim Hc|].
    rewrite Hx, length_app. simpl. lia.
Qed.

(** A round of incremental mode that continues keeps the invariant and
    uses up slack: it accepts a longer list or blocks a new package. *)
Lemma round_makes_progress (st : RunState) (w w' : World) (st' : RunState) :
  incremental st ->
  loop_body s st w = (w', Continue st') ->
  incremental st' /\ (slack st' < slack st)%nat.
Proof.
  intros Hinc Hbody.
  destruct (incremental_facts st Hinc) as [Hn [Hnd Hin]].
  pose proof Hinc as [Happ [Hbnd Hbin]].
  apply loop_body_step in Hbody.
  remember (Continue st') as r eqn:Hr.
  destruct Hbody as [w1 e Hfix | w1 c rem unf Hfix Hc | w1 c rem unf w3 Hfix Hc Hv Hz
                    | w1 c rem unf w3 Hfix Hc Hv Hz | w1 c rem unf w3 Hfix Hc Hv Hz
                    | w1 c rem unf w3 Hfix Hc Hv Hz];
    try discriminate; injection Hr as <-; try lia;
    apply deterministic in Hfix; subst c.
  - (* the candidates are accepted *)
    pose proof (candidates_longer st Hinc Hc) as Hlonger.
    pose proof (NoDup_incl_length
                  (no_duplicates (n_patches st) (blocklist_entries st) Hn)
                  (from_universe (n_patches st) (blocklist_entries st) Hn))
      as Hfits.
    split.
    + split; [|split; assumption]. right. simpl.
      split; [lia|]. now rewrite Z.add_simpl_r.
    + unfold slack. simpl. lia.
  - (* the new candidates are blocked *)
    set (added := filter (fun upgrade => negb (contains (applied_changes st) upgrade))
                         (acquire (n_patches st) (blocklist_entries st))).
    assert (Hadded : forall x, In x added <->
                               In x (acquire (n_patches st) (blocklist_entries st))
                               /\ ~ In x (applied_changes st)).
    { intros x. unfold added.
      now rewrite filter_In, negb_true_iff, contains_not_In. }
    assert (Hnodup : NoDup (blocklist_entries st ++ added)).
    { apply NoDup_app; [assumption | apply NoDup_filter, no_duplicates, Hn |].
      intros x Hx Hx'. apply Hadded in Hx'.
      exact (blocked_excluded _ _ _ Hn (proj1 Hx') Hx). }
    assert (Hincl : incl (blocklist_entries st ++ added) universe).
    { apply incl_app; [assumption|].
      intros x Hx. apply Hadded in Hx.
      exact (from_universe _ _ Hn x (proj1 Hx)). }
    split.
    + split; [|split; assumption]. simpl.
      destruct Happ as [Hfirst | [Htwo Ha]]; [now left | right].
      split; [exact Htwo|].
      rewrite blocking_others; [exact Ha | lia |].
      intros x Hx. rewrite <- Ha. apply Hadded in Hx. tauto.
    + destruct (candidate_outside_applied st Hinc Hc) as [x Hx].
      apply Hadded in Hx.
      pose proof (NoDup_incl_length Hnodup Hincl) as Hfits.
      rewrite length_app in Hfits.
      assert (0 < List.length added)%nat
        by (destruct added; [now elim Hx | simpl; lia]).
      unfold slack. simpl. fold added. rewrite length_app. lia.
Qed.

(** From a state of incremental mode the loop ends within its slack plus
    one rounds. *)
Lemma incremental_terminates (m : nat) :
  forall st w,
    incremental st -> (slack st <= m)%nat ->
    exists w' o, loop (S m) s st w = (w', o) /\ o <> OutOfFuel.
Proof.
  induction m as [|m IH]; intros st w Hinc Hslack; simpl;
    destruct (loop_body s st w) as [w1 [st1 | st1 | e]] eqn:Hbody;
    try (eexists; eexists; split; [reflexivity | discriminate]);
    destruct (round_makes_progress st w w1 st1 Hinc Hbody) as [Hinc1 Hless].
  - lia.
  - apply IH; [exact Hinc1 | lia].
Qed.


End Termination.

(** ** The claims on concrete runs *)

Module Runs.

Import Scenarios.
Local Open Scope string_scope.
Local Open Scope Z_scope.

(** *** A fixer that ignores the blocklist *)

Lemma stubborn_fix (n : Z) (blocklist : list string) (w : unit) :
  run_fix stubborn_env project [] n blocklist in_place w
  = (tt, inr (["pkgA"], None, None)).
Proof. destruct w. reflexivity. Qed.

Lemma stubborn_round (st : RunState) :
  applied_changes st = [] ->
  exists st',
    loop_body stubborn_env project [] in_place st tt = (tt, Continue st')
    /\ applied_changes st' = [].
Proof.
  intros Happ. unfold loop_body. rewrite stubborn_fix, Happ. simpl.
  destruct (n_patches st =? 0); eexists; (split; reflexivity).
Qed.

Lemma stubborn_loop (fuel : nat) :
  forall st, applied_changes st = [] ->
             loop stubborn_env project [] fuel in_place st tt = (tt, OutOfFuel).
Proof.
  induction fuel as [|fuel IH]; intros st Happ; [reflexivity|].
  destruct (stubborn_round st Happ) as [st' [Hbody Happ']].
  simpl. rewrite Hbody. now apply IH.
Qed.

(** A fixer that upgrades [pkgA] whatever the budget and the blocklist are
    has candidates that are a function of them and come from a universe of
    one package; when the tests always fail, the loop blocks [pkgA] again in
    every round and never ends. *)
Lemma constant_fixer_never_terminates :
  (forall n blocklist w,
      run_fix stubborn_env project [] n blocklist in_place w
      = (tt, inr (["pkgA"], None, None)))
  /\ ~ terminates stubborn_env project [] in_place initial_state tt.
Proof.
  split; [exact stubborn_fix|].
  intros [fuel [w' [o [Hrun Ho]]]].
  rewrite stubborn_loop in Hrun by reflexivity.
  injection Hrun as _ <-. now elim Ho.
Qed.

(** *** Fixers that read the exclusions of their command line *)

Lemma length_append (a b : string) :
  String.length (a ++ b) = (String.length a + String.length b)%nat.
Proof. induction a as [|c a IH]; simpl; [reflexivity | now rewrite IH]. Qed.

Lemma append_eqb_cancel (a p suffix : string) :
  String.eqb (a ++ suffix) (p ++ suffix) = String.eqb a p.
Proof.
  revert p. induction a as [|c a IH]; intros [|d p].
  - apply String.eqb_refl.
  - apply String.eqb_neq. intros H. apply (f_equal String.length) in H.
    simpl in H. rewrite length_append in H. lia.
  - apply String.eqb_neq. intros H. apply (f_equal String.length) in H.
    simpl in H. rewrite length_append in H. lia.
  - change (String.eqb (String c a ++ suffix) (String d p ++ suffix))
      with (if Ascii.eqb c d then String.eqb (a ++ suffix) (p ++ suffix) else false).
    change (String.eqb (String c a) (String d p))
      with (if Ascii.eqb c d then String.eqb a p else false).
    now rewrite IH.
Qed.

(** The command line holds the exclusion of a package exactly when the
    blocklist holds the package, when that exclusion is no number and none of
    the other words of the command line. *)
Lemma excluded_iff_blocked (p : string) (n : Z) (blocklist : list string) :
  (forall m, String.eqb (p ++ ":none") (PyText.str m) = false) ->
  String.eqb (p ++ ":none") "--apply-top" = false ->
  String.eqb (p ++ ":none") "--upgrade-config" = false ->
  contains (fix_command project [] 0 [] in_place) (p ++ ":none") = false ->
  contains (fix_command project [] n blocklist in_place) (p ++ ":none")
  = contains blocklist p.
Proof.
  intros Hstr Htop Hconfig Hbase. unfold fix_command, contains in *.
  change (0 =? 0) with true in Hbase. cbn [flat_map] in Hbase.
  rewrite app_nil_r in Hbase.
  rewrite existsb_app.
  assert (Hhead : forall cmd,
             existsb (String.eqb (p ++ ":none")) cmd = false ->
             existsb (String.eqb (p ++ ":none"))
               (if n =? 0 then cmd
                else (cmd ++ ["--apply-top"; PyText.str n])%list) = false).
  { intros cmd Hcmd. destruct (n =? 0); [exact Hcmd|].
    rewrite existsb_app, Hcmd. cbn [existsb orb].
    now rewrite Hstr, Htop. }
  rewrite (Hhead _ Hbase). cbn [orb].
  induction blocklist as [|q blocklist IH]; [reflexivity|].
  cbn [flat_map existsb app]. rewrite IH, append_eqb_cancel, Hconfig.
  reflexivity.
Qed.

Lemma str_starts_no_package (n : Z) (name : string) :
  String.eqb (String "p" name) (PyText.str n) = false.
Proof.
  unfold PyText.str, NilZero.string_of_int.
  destruct (Z.to_int n) as [d | d]; [|reflexivity].
  unfold NilZero.string_of_uint.
  destruct d; reflexivity.
Qed.

Lemma pkgA_excluded (n : Z) (blocklist : list string) :
  contains (fix_command project [] n blocklist in_place) "pkgA:none"
  = contains blocklist "pkgA".
Proof.
  apply (excluded_iff_blocked "pkgA" n blocklist);
    [intros m; apply str_starts_no_package | reflexivity ..].
Qed.

Lemma pkgB_excluded (n : Z) (blocklist : list string) :
  contains (fix_command project [] n blocklist in_place) "pkgB:none"
  = contains blocklist "pkgB".
Proof.
  apply (excluded_iff_blocked "pkgB" n blocklist);
    [intros m; apply str_starts_no_package | reflexivity ..].
Qed.

(** *** A fixer that stops proposing once a package is blocked *)

Lemma retracting_fix (n : Z) (blocklist : list string) (w : list string) :
  exists c,
    run_fix retracting_env project [] n blocklist in_place w
    = (c, inr (c, None, None))
    /\ incl c ["pkgA"; "pkgB"]
    /\ (forall x, In x c -> ~ In x blocklist).
Proof.
  unfold run_fix. simpl git_checkout. cbv iota beta.
  change (0 =? 0) with true. cbv iota.
  simpl osv_scanner_fix. rewrite pkgA_excluded, pkgB_excluded.
  destruct (contains blocklist "pkgB") eqn:HB.
  - exists []. split; [reflexivity|]. split; intros x [].
  - apply contains_not_In in HB.
    destruct (contains blocklist "pkgA") eqn:HA.
    + exists ["pkgB"]. split; [reflexivity|]. split.
      * intros x [<- | []]. right. now left.
      * intros x [<- | []]. exact HB.
    + apply contains_not_In in HA.
      destruct (contains (fix_command project [] n blocklist in_place)
                  "--apply-top"
                && contains (fix_command project [] n blocklist in_place) "1").
      * exists ["pkgA"]. split; [reflexivity|]. split.
        -- intros x [<- | []]. now left.
        -- intros x [<- | []]. exact HA.
      * exists ["pkgA"; "pkgB"]. split; [reflexivity|]. split.
        -- apply incl_refl.
        -- intros x [<- | [<- | []]]; assumption.
Qed.


(** *** A fixer with one upgrade that honours the blocklist *)

Lemma one_package_fix (n : Z) (blocklist : list string) (w : list string) :
  snd (run_fix one_package_env project [] n blocklist in_place w)
  = inr (one_package n blocklist, None, None).
Proof.
  unfold run_fix, one_package. simpl git_checkout. cbv iota beta.
  change (0 =? 0) with true. cbv iota.
  simpl osv_scanner_fix. rewrite pkgA_excluded.
  destruct (contains blocklist "pkgA"); reflexivity.
Qed.


(** *** Ways out of the loop *)

(** C2, counterexample: with a fixer that upgrades [pkgA] and passing
    tests, the first round accepts [pkgA] and returns although its
    candidates differ from [applied], which is empty. *)
Lemma first_probe_returns_without_fixed_point :
  ~ (forall fuel w w' st',
        loop eager_env project [] fuel in_place initial_state w
        = (w', Returned st') ->
        exists k wk stk,
          state_at eager_env project [] k in_place initial_state w
          = Some (wk, stk)
          /\ loop_body eager_env project [] in_place stk wk = (w', Break st')
          /\ candidates_at eager_env project [] in_place stk wk
             = Some (applied_changes stk)).
Proof.
  intros Hclaim.
  destruct (Hclaim 1%nat tt tt eager_final eq_refl) as [k [wk [stk [Hk [_ Hc]]]]].
  destruct k as [|k].
  - injection Hk as <- <-. vm_compute in Hc. discriminate.
  - change (state_at eager_env project [] (S k) in_place initial_state tt)
      with (match loop_body eager_env project [] in_place initial_state tt with
            | (w1, Continue st1) =>
                state_at eager_env project [] k in_place st1 w1
            | _ => None
            end) in Hk.
    replace (loop_body eager_env project [] in_place initial_state tt)
      with (tt, Break eager_final) in Hk by reflexivity.
    discriminate.
Qed.

(** C2, witness: the run of scenario C returns at a fixed point. *)
Lemma scenario_C_returns :
  exists k wk stk w1 c rem unf,
    state_at (scripted_env scenario_C) project [] k in_place initial_state 0%nat
    = Some (wk, stk)
    /\ run_fix (scripted_env scenario_C) project []
         (n_patches stk) (blocklist_entries stk) in_place wk
       = (w1, inr (c, rem, unf))
    /\ applied_changes scenario_C_final = c
    /\ ((c = applied_changes stk /\ 4%nat = w1)
        \/ (c <> applied_changes stk /\ k = O /\ n_patches stk = 0
            /\ validate (scripted_env scenario_C) w1 = (4%nat, true))).
Proof.
  apply (loop_returns_two_ways (scripted_env scenario_C) project []
           10 in_place 0%nat 4%nat scenario_C_final).
  vm_compute. reflexivity.
Defined.

(** *** A fixer that fails *)



(** *** The blocklist and the unfixable count *)

(** C4, witness: in scenario C the failing third round blocks [pkgB], the
    one candidate that is not in [applied]. *)
Lemma scenario_C_blocks_pkgB :
  (exists st',
      loop_body (scripted_env scenario_C) project [] in_place
        scenario_C_round2 2%nat
      = (3%nat, Continue st')
      /\ blocklist_entries st' =
           (blocklist_entries scenario_C_round2
              ++ filter (fun upgrade =>
                           negb (contains (applied_changes scenario_C_round2) upgrade))
                        ["pkgA"; "pkgB"])%list
      /\ (forall x, In x (blocklist_entries st') <->
                      In x (blocklist_entries scenario_C_round2)
                      \/ (In x ["pkgA"; "pkgB"]
                          /\ ~ In x (applied_changes scenario_C_round2)))
      /\ n_patches st' = n_patches scenario_C_round2)
  /\ ((exists added,
          blocklist_entries scenario_C_round3
          = (blocklist_entries scenario_C_round2 ++ added)%list)
      /\ incl (blocklist_entries scenario_C_round2)
              (blocklist_entries scenario_C_round3)).
Proof.
  split.
  - apply (proj1 (blocklist_grows_on_failure (scripted_env scenario_C) project [])
             in_place scenario_C_round2 2%nat 3%nat ["pkgA"; "pkgB"] None None
             3%nat).
    + vm_compute. reflexivity.
    + discriminate.
    + reflexivity.
    + simpl. lia.
  - apply (proj2 (blocklist_grows_on_failure (scripted_env scenario_C) project [])
             in_place initial_state 0%nat 2%nat 3%nat 2%nat scenario_C_round2
             3%nat scenario_C_round3).
    + lia.
    + vm_compute. reflexivity.
    + vm_compute. reflexivity.
Defined.


(** C7, witness: what scenario C returns as [applied] was validated in an
    earlier round. *)
Lemma scenario_C_applied_was_validated :
  applied_changes scenario_C_final = []
  \/ exists j wj stj w1 c rem unf,
       state_at (scripted_env scenario_C) project [] j in_place initial_state 0%nat
       = Some (wj, stj)
       /\ run_fix (scripted_env scenario_C) project []
            (n_patches stj) (blocklist_entries stj) in_place wj
          = (w1, inr (c, rem, unf))
       /\ (exists w3, validate (scripted_env scenario_C) w1 = (w3, true))
       /\ applied_changes scenario_C_final = c.
Proof.
  apply (proj2 (proj2 (applied_only_after_validation (scripted_env scenario_C)
                         project []))
           10%nat in_place 0%nat 4%nat scenario_C_final).
  vm_compute. reflexivity.
Defined.


(** *** The selector and the report *)




(** C9, counterexample: in scenario B the winning strategy has a known
    unfixable count of zero, and the report has no line for it. *)
Lemma zero_unfixable_is_not_reported :
  exists best,
    select (scripted_env scenario_B) project [] 10 PATCH_STRATEGIES
      initial_best 0%nat
    = (4%nat, Returned best)
    /\ best_unfixable best = Some 0
    /\ ~ In (UnfixableLine 0) (final_report best).
Proof.
  eexists. split; [vm_compute; reflexivity|]. split; [reflexivity|].
  intros H. vm_compute in H.
  repeat (destruct H as [H | H]; [discriminate|]). exact H.
Qed.

End Runs.

(** ** More about rounds and runs *)

Section RunFacts.

Context {World : Type}.
Variable env : Environment World.
Variable DIRECTORY : string.
Variable OSV_FIX_ARGS : list string.

Local Abbreviation run_fix := (run_fix env DIRECTORY OSV_FIX_ARGS).
Local Abbreviation loop_body := (loop_body env DIRECTORY OSV_FIX_ARGS).
Local Abbreviation loop := (loop env DIRECTORY OSV_FIX_ARGS).
Local Abbreviation run_loop := (run_loop env DIRECTORY OSV_FIX_ARGS).
Local Abbreviation state_at := (state_at env DIRECTORY OSV_FIX_ARGS).
Local Abbreviation step := (step env DIRECTORY OSV_FIX_ARGS).
Local Abbreviation validate := (validate env).
Local Abbreviation select := (select env DIRECTORY OSV_FIX_ARGS).
Local Abbreviation run_all := (run_all env DIRECTORY OSV_FIX_ARGS).
Local Abbreviation main := (main env DIRECTORY OSV_FIX_ARGS).

(** *** Exceptions *)

Lemma run_fix_raises (n : Z) (blocklist s : list string) (w w' : World) (e : error) :
  run_fix n blocklist s w = (w', inl e)
  <-> exists status,
       git_checkout env w = (w', status) /\ status <> 0 /\ e = CheckoutFailed status.
Proof.
  unfold run_fix.
  destruct (git_checkout env w) as [w1 status] eqn:Hgit.
  destruct (status =? 0) eqn:Hz.
  - apply Z.eqb_eq in Hz.
    destruct (osv_scanner_fix env _ w1) as [w2 res]. split.
    + discriminate.
    + intros [status' [Heq [Hnz _]]]. injection Heq as _ <-. now elim Hnz.
  - apply Z.eqb_neq in Hz. split.
    + intros H. injection H as <- <-. exists status. auto.
    + intros [status' [Heq [_ ->]]]. injection Heq as <- <-. reflexivity.
Qed.

Lemma round_aborts (s : list string) (st : RunState) (w w' : World) (e : error) :
  loop_body s st w = (w', Abort e)
  <-> run_fix (n_patches st) (blocklist_entries st) s w = (w', inl e).
Proof.
  rewrite loop_body_step. split.
  - intros H. remember (Abort e) as r eqn:Hr.
    destruct H; try discriminate. injection Hr as <-. assumption.
  - intros H. now apply step_abort.
Qed.

Lemma loop_raised (fuel : nat) (s : list string) :
  forall st w w' e,
    loop fuel s st w = (w', Raised e) ->
    exists k wk stk,
      (k < fuel)%nat /\ state_at k s st w = Some (wk, stk)
      /\ loop_body s stk wk = (w', Abort e).
Proof.
  induction fuel as [|fuel IH]; intros st w w' e H; simpl in H.
  - discriminate.
  - destruct (loop_body s st w) as [w1 [st1 | st1 | e1]] eqn:Hbody.
    + apply IH in H. destruct H as [k [wk [stk [Hlt [Hk Hb]]]]].
      exists (S k), wk, stk. split; [lia|]. split; [|exact Hb].
      simpl. rewrite Hbody. exact Hk.
    + discriminate.
    + injection H as <- <-. exists O, w, st. repeat split; [lia | exact Hbody].
Qed.

Lemma loop_outcome_of_run (fuel : nat) (s : list string) (w w' : World) (e : error) :
  run_loop fuel s w = (w', Raised e)
  <-> loop fuel s initial_state w = (w', Raised e).
Proof.
  unfold run_loop.
  destruct (loop fuel s initial_state w) as [w1 [st | e1 |]];
    split; intros H; try discriminate; congruence.
Qed.


(** *** The first round *)

(** X2: when the first call of the fixer gives no candidates, [run_loop]
    returns at once with no changes, the remaining count of that call, no
    unfixable count and an empty blocklist, and neither install nor test
    runs. *)
Theorem nothing_to_fix_returns_at_once (s : list string) (w w1 : World)
    (rem unf : option Z) (fuel : nat) :
  run_fix 0 [] s w = (w1, inr ([], rem, unf)) ->
  run_loop (S fuel) s w = (w1, Returned ([], rem, None, [])).
Proof.
  intros Hfix.
  assert (Hbody : loop_body s initial_state w
                  = (w1, Break {| applied_changes := [];
                                  blocklist_entries := [];
                                  n_patches := 0;
                                  remaining_vulns := rem;
                                  total_unfixable := None |})).
  { apply loop_body_step.
    apply (step_fixed_point env DIRECTORY OSV_FIX_ARGS s initial_state w w1 [] rem unf);
      [exact Hfix | reflexivity]. }
  unfold run_loop. simpl. rewrite Hbody. reflexivity.
Qed.

(** X3: when the first candidates are not empty and pass install and test,
    [run_loop] returns them after that one round, with an empty blocklist
    and with no unfixable count, whatever count the fixer reported. *)
Theorem all_at_once_is_accepted (s : list string) (w w1 w3 : World)
    (c : list string) (rem unf : option Z) (fuel : nat) :
  run_fix 0 [] s w = (w1, inr (c, rem, unf)) ->
  c <> [] ->
  validate w1 = (w3, true) ->
  run_loop (S fuel) s w = (w3, Returned (c, rem, None, [])).
Proof.
  intros Hfix Hc Hv.
  assert (Hbody : loop_body s initial_state w
                  = (w3, Break {| applied_changes := c;
                                  blocklist_entries := [];
                                  n_patches := 0;
                                  remaining_vulns := rem;
                                  total_unfixable := None |})).
  { apply loop_body_step.
    apply (step_accept_all env DIRECTORY OSV_FIX_ARGS s initial_state w w1 c rem unf w3);
      [exact Hfix | exact Hc | exact Hv | reflexivity]. }
  unfold run_loop. simpl. rewrite Hbody. reflexivity.
Qed.

(** *** The budget *)

Lemma budget_step (s : list string) (st : RunState) (w w' : World)
    (st' : RunState) :
  loop_body s st w = (w', Continue st') ->
  n_patches st <= n_patches st' <= n_patches st + 1.
Proof.
  intros H. apply loop_body_step in H.
  remember (Continue st') as r eqn:Hr.
  destruct H; try discriminate; injection Hr as <-; simpl; lia.
Qed.

Lemma budget_nonnegative (s : list string) (w : World) (k : nat) (wk : World)
    (stk : RunState) :
  state_at k s initial_state w = Some (wk, stk) -> 0 <= n_patches stk.
Proof.
  apply (state_at_invariant env DIRECTORY OSV_FIX_ARGS
           (fun st => 0 <= n_patches st) s).
  - intros st w0 w0' st' Hn Hbody. apply budget_step in Hbody. lia.
  - simpl. lia.
Qed.

(** X4: along a run the budget never decreases and grows by at most one per
    round; from the initial state it is at most the number of rounds made. *)
Theorem budget_grows_slowly (s : list string) (st : RunState) (w : World)
    (i j : nat) (wi wj : World) (si sj : RunState) :
  (i <= j)%nat ->
  state_at i s st w = Some (wi, si) ->
  state_at j s st w = Some (wj, sj) ->
  n_patches si <= n_patches sj <= n_patches si + Z.of_nat (j - i).
Proof.
  intros Hle Hi Hj.
  pose proof (state_at_le env DIRECTORY OSV_FIX_ARGS i j s st w wi wj si sj Hle Hi Hj)
    as Hreach.
  clear Hi Hj Hle. revert wj sj Hreach.
  induction (j - i)%nat as [|d IH]; intros wj sj Hreach.
  - simpl in Hreach. injection Hreach as _ <-. simpl. lia.
  - apply state_at_last in Hreach. destruct Hreach as [wk [sk [Hk Hbody]]].
    specialize (IH wk sk Hk). apply budget_step in Hbody. lia.
Qed.

(** *** Where blocklist entries come from *)

Lemma blocklist_step (s : list string) (st : RunState) (w w' : World)
    (st' : RunState) (x : string) :
  loop_body s st w = (w', Continue st') ->
  In x (blocklist_entries st') ->
  In x (blocklist_entries st)
  \/ exists w1 c rem unf,
       run_fix (n_patches st) (blocklist_entries st) s w = (w1, inr (c, rem, unf))
       /\ validate w1 = (w', false)
       /\ n_patches st <> 0
       /\ In x c /\ ~ In x (applied_changes st).
Proof.
  intros H Hx. apply loop_body_step in H.
  remember (Continue st') as r eqn:Hr.
  destruct H as [w1 e Hfix | w1 c rem unf Hfix Hc | w1 c rem unf w3 Hfix Hc Hv Hz
                | w1 c rem unf w3 Hfix Hc Hv Hz | w1 c rem unf w3 Hfix Hc Hv Hz
                | w1 c rem unf w3 Hfix Hc Hv Hz];
    try discriminate; injection Hr as <-; simpl in Hx; try (now left).
  apply in_app_or in Hx. destruct Hx as [Hx | Hx]; [now left | right].
  apply filter_In in Hx. destruct Hx as [Hin Hout].
  apply negb_true_iff, contains_not_In in Hout.
  exists w1, c, rem, unf. auto.
Qed.

(** X5: every package on the blocklist at the start of a round was a
    candidate of an earlier round of incremental mode whose validation
    failed, and was not in [applied] in that round. *)
Theorem blocklist_entries_were_blamed (s : list string) (w : World) (k : nat)
    (wk : World) (stk : RunState) (x : string) :
  state_at k s initial_state w = Some (wk, stk) ->
  In x (blocklist_entries stk) ->
  exists j wj stj w1 c rem unf w3,
    (j < k)%nat
    /\ state_at j s initial_state w = Some (wj, stj)
    /\ run_fix (n_patches stj) (blocklist_entries stj) s wj = (w1, inr (c, rem, unf))
    /\ validate w1 = (w3, false)
    /\ 1 <= n_patches stj
    /\ In x c /\ ~ In x (applied_changes stj).
Proof.
  revert wk stk. induction k as [|k IH]; intros wk stk Hk Hx.
  - simpl in Hk. injection Hk as _ <-. destruct Hx.
  - pose proof Hk as Hlast. apply state_at_last in Hlast.
    destruct Hlast as [wj [stj [Hj Hbody]]].
    destruct (blocklist_step s stj wj wk stk x Hbody Hx)
      as [Hold | [w1 [c [rem [unf [Hfix [Hv [Hn [Hin Hout]]]]]]]]].
    + destruct (IH wj stj Hj Hold)
        as [i [wi [sti [w1 [c [rem [unf [w3 [Hlt H]]]]]]]]].
      exists i, wi, sti, w1, c, rem, unf, w3. split; [lia | exact H].
    + exists k, wj, stj, w1, c, rem, unf, wk.
      split; [lia|]. split; [exact Hj|]. split; [exact Hfix|]. split; [exact Hv|].
      split; [|auto].
      pose proof (budget_nonnegative s w k wj stj Hj). lia.
Qed.

(** *** A fixer that honours the exclusions *)

Lemma disjoint_step (s : list string) (st : RunState) (w w' : World) (r : round)
    (st' : RunState) :
  (forall n blocklist w0 w1 c rem unf,
      run_fix n blocklist s w0 = (w1, inr (c, rem, unf)) ->
      forall x, In x c -> ~ In x blocklist) ->
  (forall x, In x (applied_changes st) -> ~ In x (blocklist_entries st)) ->
  loop_body s st w = (w', r) ->
  r = Continue st' \/ r = Break st' ->
  forall x, In x (applied_changes st') -> ~ In x (blocklist_entries st').
Proof.
  intros Hhonours Hinv H Hr. apply loop_body_step in H.
  destruct H as [w1 e Hfix | w1 c rem unf Hfix Hc | w1 c rem unf w3 Hfix Hc Hv Hz
                | w1 c rem unf w3 Hfix Hc Hv Hz | w1 c rem unf w3 Hfix Hc Hv Hz
                | w1 c rem unf w3 Hfix Hc Hv Hz];
    destruct Hr as [Hr | Hr]; try discriminate; injection Hr as <-; simpl;
    try exact Hinv; try exact (Hhonours _ _ _ _ _ _ _ Hfix).
  intros x Hx Hbl. apply in_app_or in Hbl. destruct Hbl as [Hbl | Hbl].
  - exact (Hinv x Hx Hbl).
  - apply filter_In in Hbl. destruct Hbl as [_ Hout].
    apply negb_true_iff, contains_not_In in Hout. exact (Hout Hx).
Qed.

(** X6: when the fixer never proposes a package that its command line
    excludes, no package is both in [applied] and on the blocklist, at the
    start of every round and in what [run_loop] returns. *)
Theorem applied_and_blocklist_disjoint (s : list string) :
  (forall n blocklist w0 w1 c rem unf,
      run_fix n blocklist s w0 = (w1, inr (c, rem, unf)) ->
      forall x, In x c -> ~ In x blocklist) ->
  (forall w k wk stk,
      state_at k s initial_state w = Some (wk, stk) ->
      forall x, In x (applied_changes stk) -> ~ In x (blocklist_entries stk))
  /\ (forall fuel w w' changes rem unf blocklist,
        run_loop fuel s w = (w', Returned (changes, rem, unf, blocklist)) ->
        forall x, In x changes -> ~ In x blocklist).
Proof.
  intros Hhonours.
  assert (Hreach : forall w k wk stk,
             state_at k s initial_state w = Some (wk, stk) ->
             forall x, In x (applied_changes stk) -> ~ In x (blocklist_entries stk)).
  { intros w k wk stk Hk.
    apply (state_at_invariant env DIRECTORY OSV_FIX_ARGS
             (fun st => forall x, In x (applied_changes st)
                                  -> ~ In x (blocklist_entries st)) s)
      with (k := k) (st := initial_state) (w := w) (wk := wk).
    - intros st w0 w0' st' Hinv Hbody.
      exact (disjoint_step s st w0 w0' (Continue st') st' Hhonours Hinv Hbody
               (or_introl eq_refl)).
    - intros x [].
    - exact Hk. }
  split; [exact Hreach|].
  intros fuel w w' changes rem unf blocklist Hrun.
  unfold run_loop in Hrun.
  destruct (loop fuel s initial_state w) as [w1 [st | e |]] eqn:Hloop;
    try discriminate.
  injection Hrun as <- <- <- <- <-.
  apply loop_returned in Hloop. destruct Hloop as [k [wk [stk [_ [Hk Hbreak]]]]].
  exact (disjoint_step s stk wk w1 (Break st) st Hhonours (Hreach w k wk stk Hk)
           Hbreak (or_intror eq_refl)).
Qed.

End RunFacts.

(** ** More about the selector *)

Lemma consider_remaining_le (best : Best) (s : list string) (r : loop_result) :
  best_remaining (consider best s r) <= best_remaining best.
Proof.
  destruct r as [[[c rem] unf] bl]. unfold consider.
  destruct c as [|x c]; [lia|]. destruct rem as [k|]; [|lia].
  destruct (k <? best_remaining best) eqn:Hlt; [|lia].
  apply Z.ltb_lt in Hlt. simpl. lia.
Qed.

Lemma consider_le_eligible (best : Best) (s : list string) (r : loop_result)
    (k : Z) :
  eligible r k -> best_remaining (consider best s r) <= k.
Proof.
  destruct r as [[[c rem] unf] bl]. unfold eligible, consider. simpl.
  intros [Hc ->]. destruct c as [|x c]; [now elim Hc|].
  destruct (k <? best_remaining best) eqn:Hlt.
  - simpl. lia.
  - apply Z.ltb_ge in Hlt. exact Hlt.
Qed.

Lemma consider_keeps (best : Best) (s : list string) (r : loop_result) :
  (forall k, eligible r k -> best_remaining best <= k) ->
  consider best s r = best.
Proof.
  destruct r as [[[c rem] unf] bl]. unfold eligible, consider. simpl.
  intros Hle. destruct c as [|x c]; [reflexivity|].
  destruct rem as [k|]; [|reflexivity].
  assert (best_remaining best <= k) by (apply Hle; split; [discriminate | reflexivity]).
  destruct (k <? best_remaining best) eqn:Hlt; [|reflexivity].
  apply Z.ltb_lt in Hlt. lia.
Qed.

Lemma choose_cons (best : Best) (s : list string) (r : loop_result)
    (outcomes : list (list string * loop_result)) :
  choose best ((s, r) :: outcomes) = choose (consider best s r) outcomes.
Proof. reflexivity. Qed.

Lemma choose_app (best : Best) (pre post : list (list string * loop_result)) :
  choose best (pre ++ post) = choose (choose best pre) post.
Proof. unfold choose. apply fold_left_app. Qed.

Lemma choose_remaining_le (outcomes : list (list string * loop_result)) :
  forall best, best_remaining (choose best outcomes) <= best_remaining best.
Proof.
  induction outcomes as [|[s r] outcomes IH]; intros best; [simpl; lia|].
  rewrite choose_cons.
  pose proof (IH (consider best s r)). pose proof (consider_remaining_le best s r).
  lia.
Qed.

Lemma choose_least (outcomes : list (list string * loop_result)) :
  forall best s r k,
    In (s, r) outcomes -> eligible r k ->
    best_remaining (choose best outcomes) <= k.
Proof.
  induction outcomes as [|[s0 r0] outcomes IH]; intros best s r k Hin Hel;
    [destruct Hin|].
  rewrite choose_cons. destruct Hin as [Heq | Hin].
  - injection Heq as -> ->.
    pose proof (choose_remaining_le outcomes (consider best s r)).
    pose proof (consider_le_eligible best s r k Hel). lia.
  - exact (IH _ s r k Hin Hel).
Qed.

Lemma choose_keeps (outcomes : list (list string * loop_result)) (best : Best) :
  (forall s r k, In (s, r) outcomes -> eligible r k -> best_remaining best <= k) ->
  choose best outcomes = best.
Proof.
  induction outcomes as [|[s r] outcomes IH]; intros Hle; [reflexivity|].
  rewrite choose_cons, consider_keeps.
  - apply IH. intros s' r' k Hin. apply (Hle s' r' k). now right.
  - intros k. apply (Hle s r k). now left.
Qed.

Lemma choose_stays_above (outcomes : list (list string * loop_result)) (k : Z) :
  forall best,
    k < best_remaining best ->
    (forall s r k', In (s, r) outcomes -> eligible r k' -> k < k') ->
    k < best_remaining (choose best outcomes).
Proof.
  induction outcomes as [|[s r] outcomes IH]; intros best Hbest Hall;
    [exact Hbest|].
  rewrite choose_cons. apply IH.
  - destruct r as [[[c rem] unf] bl]. unfold consider.
    destruct c as [|x c]; [exact Hbest|]. destruct rem as [k'|]; [|exact Hbest].
    destruct (k' <? best_remaining best); [|exact Hbest].
    simpl. apply (Hall s (x :: c, Some k', unf, bl) k'); [now left|].
    split; [discriminate | reflexivity].
  - intros s' r' k' Hin. apply (Hall s' r' k'). now right.
Qed.

Section SelectorFacts.

Context {World : Type}.
Variable env : Environment World.
Variable DIRECTORY : string.
Variable OSV_FIX_ARGS : list string.

Local Abbreviation run_loop := (run_loop env DIRECTORY OSV_FIX_ARGS).
Local Abbreviation loop := (loop env DIRECTORY OSV_FIX_ARGS).
Local Abbreviation select := (select env DIRECTORY OSV_FIX_ARGS).
Local Abbreviation run_all := (run_all env DIRECTORY OSV_FIX_ARGS).
Local Abbreviation main := (main env DIRECTORY OSV_FIX_ARGS).

(** The selector is the comparisons folded over the results of the runs;
    the first run that does not return ends it. *)
Lemma select_as_fold (fuel : nat) (strategies : list (list string)) :
  forall best w,
    select fuel strategies best w
    = match run_all fuel strategies w with
      | (w', Returned results) =>
          (w', Returned (choose best (combine strategies results)))
      | (w', Raised e) => (w', Raised e)
      | (w', OutOfFuel) => (w', OutOfFuel)
      end.
Proof.
  induction strategies as [|s strategies IH]; intros best w; [reflexivity|].
  simpl. destruct (run_loop fuel s w) as [w1 [r | e |]]; try reflexivity.
  rewrite IH. destruct (run_all fuel strategies w1) as [w2 [rs | e |]]; reflexivity.
Qed.

(** X7: when all runs return, the selector returns a record whose remaining
    count is at most the one it started from and at most the remaining count
    of every strategy that accepted upgrades and reported a count. *)
Theorem selected_remaining_is_least (fuel : nat) (strategies : list (list string))
    (best : Best) (w w' : World) (results : list loop_result) :
  run_all fuel strategies w = (w', Returned results) ->
  exists best',
    select fuel strategies best w = (w', Returned best')
    /\ best_remaining best' <= best_remaining best
    /\ (forall s r k,
          In (s, r) (combine strategies results) -> eligible r k ->
          best_remaining best' <= k).
Proof.
  intros Hruns. exists (choose best (combine strategies results)).
  rewrite select_as_fold, Hruns. split; [reflexivity|].
  split; [apply choose_remaining_le|].
  intros s r k. apply choose_least.
Qed.

(** X8: the strategy that wins is the first one to reach the least remaining
    count: when a strategy accepted upgrades with a count below the starting
    one, every eligible strategy before it has a strictly greater count and
    every eligible one after it a count at least as great, the selector
    returns the outcome of that strategy. *)
Theorem first_least_strategy_wins (fuel : nat) (strategies : list (list string))
    (best : Best) (w w' : World) (results : list loop_result)
    (pre post : list (list string * loop_result)) (s c : list string) (k : Z)
    (unf : option Z) (bl : list string) :
  run_all fuel strategies w = (w', Returned results) ->
  combine strategies results = pre ++ (s, (c, Some k, unf, bl)) :: post ->
  c <> [] ->
  k < best_remaining best ->
  (forall s' r' k', In (s', r') pre -> eligible r' k' -> k < k') ->
  (forall s' r' k', In (s', r') post -> eligible r' k' -> k <= k') ->
  select fuel strategies best w = (w', Returned (snapshot s c k unf bl)).
Proof.
  intros Hruns Hsplit Hc Hbest Hpre Hpost.
  rewrite select_as_fold, Hruns, Hsplit, choose_app, choose_cons.
  pose proof (choose_stays_above pre k best Hbest Hpre) as Habove.
  assert (Hwin : consider (choose best pre) s (c, Some k, unf, bl)
                 = snapshot s c k unf bl).
  { unfold consider. destruct c as [|x c]; [now elim Hc|].
    apply Z.ltb_lt in Habove. rewrite Habove. reflexivity. }
  rewrite Hwin, choose_keeps; [reflexivity|].
  exact Hpost.
Qed.

(** *** Without a failing checkout *)

Lemma loop_never_raises (fuel : nat) (s : list string) (st : RunState)
    (w w' : World) (e : error) :
  (forall w0, snd (git_checkout env w0) = 0) ->
  loop fuel s st w <> (w', Raised e).
Proof.
  intros Hgit Hrun.
  apply (loop_raised env DIRECTORY OSV_FIX_ARGS) in Hrun.
  destruct Hrun as [k [wk [stk [_ [_ Habort]]]]].
  apply round_aborts, run_fix_raises in Habort.
  destruct Habort as [status [Hco [Hnz _]]].
  specialize (Hgit wk). rewrite Hco in Hgit. simpl in Hgit. contradiction.
Qed.

Lemma select_never_raises (fuel : nat) (strategies : list (list string)) :
  (forall w0, snd (git_checkout env w0) = 0) ->
  forall best w w' e, select fuel strategies best w <> (w', Raised e).
Proof.
  intros Hgit. induction strategies as [|s strategies IH]; intros best w w' e;
    [discriminate|].
  simpl. destruct (run_loop fuel s w) as [w1 [r | e1 |]] eqn:Hrun.
  - apply IH.
  - apply loop_outcome_of_run in Hrun.
    now apply loop_never_raises in Hrun.
  - discriminate.
Qed.

Lemma main_never_raises (fuel : nat) (w w' : World) (e : error) :
  (forall w0, snd (git_checkout env w0) = 0) ->
  main fuel w <> (w', Raised e).
Proof.
  intros Hgit. unfold main.
  destruct (select fuel PATCH_STRATEGIES initial_best w) as [w1 [b | e1 |]] eqn:Hsel;
    try discriminate.
  intros H. injection H as <- <-.
  now apply select_never_raises in Hsel.
Qed.


(** *** A fixer that proposes nothing *)

Lemma silent_run (fuel : nat) (s : list string) (w : World) :
  (forall w0, snd (git_checkout env w0) = 0) ->
  (forall cmd w0,
      PyText.find_upgraded (captured_output (snd (osv_scanner_fix env cmd w0))) = []) ->
  exists w1 rem, run_loop (S fuel) s w = (w1, Returned ([], rem, None, [])).
Proof.
  intros Hgit Hsilent.
  assert (Hfix : exists w1 rem unf,
             run_fix env DIRECTORY OSV_FIX_ARGS 0 [] s w = (w1, inr ([], rem, unf))).
  { unfold run_fix. specialize (Hgit w).
    destruct (git_checkout env w) as [w0 status]. simpl in Hgit. subst status.
    change (0 =? 0) with true. cbv iota.
    specialize (Hsilent (fix_command DIRECTORY OSV_FIX_ARGS 0 [] s) w0).
    destruct (osv_scanner_fix env (fix_command DIRECTORY OSV_FIX_ARGS 0 [] s) w0)
      as [w1 res].
    simpl in Hsilent. unfold parse_output. rewrite Hsilent. eauto. }
  destruct Hfix as [w1 [rem [unf Hfix]]]. exists w1, rem.
  assert (Hbody : loop_body env DIRECTORY OSV_FIX_ARGS s initial_state w
                  = (w1, Break {| applied_changes := [];
                                  blocklist_entries := [];
                                  n_patches := 0;
                                  remaining_vulns := rem;
                                  total_unfixable := None |})).
  { apply loop_body_step.
    apply (step_fixed_point env DIRECTORY OSV_FIX_ARGS s initial_state w w1 [] rem unf);
      [exact Hfix | reflexivity]. }
  unfold run_loop. simpl. rewrite Hbody. reflexivity.
Qed.

Lemma select_returned (fuel : nat) (s : list string)
    (rest : list (list string)) (best : Best) (w w1 : World) (r : loop_result) :
  run_loop fuel s w = (w1, Returned r) ->
  select fuel (s :: rest) best w = select fuel rest (consider best s r) w1.
Proof. intros Hrun. simpl. rewrite Hrun. reflexivity. Qed.


End SelectorFacts.

(** ** Runs under the contract of the fixer *)

Section ContractRuns.

Context {World : Type}.
Variable env : Environment World.
Variable DIRECTORY : string.
Variable OSV_FIX_ARGS : list string.
Variable s : list string.
Variable acquire : Z -> list string -> list string.
Variable universe : list string.

Local Abbreviation run_fix := (run_fix env DIRECTORY OSV_FIX_ARGS).
Local Abbreviation loop_body := (loop_body env DIRECTORY OSV_FIX_ARGS).
Local Abbreviation loop := (loop env DIRECTORY OSV_FIX_ARGS).
Local Abbreviation run_loop := (run_loop env DIRECTORY OSV_FIX_ARGS).
Local Abbreviation state_at := (state_at env DIRECTORY OSV_FIX_ARGS).
Local Abbreviation incremental := (incremental acquire universe).
Local Abbreviation slack := (slack universe).

Hypothesis checkout_succeeds : forall w, snd (git_checkout env w) = 0.
Hypothesis deterministic :
  forall n blocklist w w' c rem unf,
    run_fix n blocklist s w = (w', inr (c, rem, unf)) -> c = acquire n blocklist.
Hypothesis from_universe :
  forall n blocklist, 1 <= n -> incl (acquire n blocklist) universe.
Hypothesis no_duplicates :
  forall n blocklist, 1 <= n -> NoDup (acquire n blocklist).
Hypothesis blocked_excluded :
  forall n blocklist x, 1 <= n -> In x (acquire n blocklist) -> ~ In x blocklist.
Hypothesis grows_by_one :
  forall n blocklist, 1 <= n ->
    acquire (n + 1) blocklist = acquire n blocklist
    \/ exists x, acquire (n + 1) blocklist = acquire n blocklist ++ [x].
Hypothesis blocking_others :
  forall n blocklist added, 1 <= n ->
    (forall x, In x added -> ~ In x (acquire n blocklist)) ->
    acquire n (blocklist ++ added) = acquire n blocklist.

Lemma loop_unfold (fuel : nat) (st : RunState) (w : World) :
  loop (S fuel) s st w
  = match loop_body s st w with
    | (w', Continue st') => loop fuel s st' w'
    | (w', Break st') => (w', Returned st')
    | (w', Abort e) => (w', Raised e)
    end.
Proof. reflexivity. Qed.

Lemma break_keeps_blocklist (st : RunState) (w w' : World) (st' : RunState) :
  loop_body s st w = (w', Break st') ->
  blocklist_entries st' = blocklist_entries st.
Proof.
  intros H. apply loop_body_step in H.
  remember (Break st') as r eqn:Hr.
  destruct H; try discriminate; injection Hr as <-; reflexivity.
Qed.

Lemma probe_enters_incremental (w w1 : World) (st1 : RunState) :
  loop_body s initial_state w = (w1, Continue st1) ->
  incremental st1 /\ (slack st1 <= 2 * List.length universe)%nat.
Proof.
  intros Hbody. apply loop_body_step in Hbody.
  remember (Continue st1) as r eqn:Hr.
  destruct Hbody as [w0 e Hfix | w0 c rem unf Hfix Hc | w0 c rem unf w3 Hfix Hc Hv Hz
                    | w0 c rem unf w3 Hfix Hc Hv Hz | w0 c rem unf w3 Hfix Hc Hv Hz
                    | w0 c rem unf w3 Hfix Hc Hv Hz];
    try discriminate; injection Hr as <-; try (simpl in Hz; now elim Hz).
  split.
  - split; [left; split; reflexivity|]. simpl.
    split; [constructor | intros x []].
  - unfold slack. simpl. lia.
Qed.


End ContractRuns.

(** ** More about the text [run_fix] writes and reads *)

Module TextFacts.

Import PyText.
Local Open Scope string_scope.
Local Open Scope Z_scope.

(** *** Decimal numbers *)

Lemma to_int_proper (n : Z) :
  Z.to_int n <> Decimal.Pos Decimal.Nil /\ Z.to_int n <> Decimal.Neg Decimal.Nil.
Proof.
  destruct n as [|p|p]; simpl; split; try discriminate;
    intros H; injection H as H; exact (DecimalPos.Unsigned.to_uint_nonnil p H).
Qed.

Lemma str_injective (n m : Z) : str n = str m -> n = m.
Proof.
  unfold str. intros H.
  apply (f_equal NilZero.int_of_string) in H.
  destruct (to_int_proper n) as [Hn1 Hn2], (to_int_proper m) as [Hm1 Hm2].
  rewrite !NilZero.isi in H by assumption.
  injection H as H. exact (DecimalZ.to_int_inj n m H).
Qed.

Definition digits_value (acc : Z) (digits : string) : Z :=
  fold_left (fun a c => 10 * a + digit_value c) (list_ascii_of_string digits) acc.

Lemma digits_value_of_uint (d : Decimal.uint) :
  forall acc : Decimal.uint,
    digits_value (Z.of_N (DecimalPos.Unsigned.of_lu acc))
      (NilEmpty.string_of_uint d)
    = Z.of_N (DecimalPos.Unsigned.of_lu (Decimal.revapp d acc)).
Proof.
  unfold digits_value.
  induction d; intros acc; [reflexivity|..];
    cbn [NilEmpty.string_of_uint list_ascii_of_string fold_left Decimal.revapp];
    rewrite <- IHd; f_equal;
    cbn [DecimalPos.Unsigned.of_lu]; unfold digit_value; simpl N_of_ascii; lia.
Qed.

Lemma int_of_str (n : Z) : 0 <= n -> int_of_digits (str n) = n.
Proof.
  intros Hn. destruct n as [|p|p]; [reflexivity | | lia].
  unfold str. cbn [Z.to_int NilZero.string_of_int]. unfold NilZero.string_of_uint.
  pose proof (DecimalPos.Unsigned.to_uint_nonnil p) as Hnil.
  pose proof (DecimalPos.Unsigned.of_to p) as Hback.
  rewrite DecimalPos.Unsigned.of_uint_alt in Hback. unfold Decimal.rev in Hback.
  pose proof (digits_value_of_uint (Pos.to_uint p) Decimal.Nil) as Hval.
  rewrite Hback in Hval. simpl in Hval.
  destruct (Pos.to_uint p); [now elim Hnil | exact Hval ..].
Qed.

Lemma uint_digits (d : Decimal.uint) (rest : string) :
  take_digits (NilEmpty.string_of_uint d ++ rest)
  = NilEmpty.string_of_uint d ++ take_digits rest.
Proof.
  induction d; [reflexivity|..];
    cbn [NilEmpty.string_of_uint String.append];
    change (take_digits (String ?c ?x))
      with (if is_digit c then String c (take_digits x) else EmptyString);
    rewrite IHd; reflexivity.
Qed.

Lemma str_digits (n : Z) (rest : string) :
  0 <= n -> take_digits (str n ++ rest) = str n ++ take_digits rest.
Proof.
  intros Hn. unfold str. destruct n as [|p|p]; [reflexivity | | lia].
  cbn [Z.to_int NilZero.string_of_int]. unfold NilZero.string_of_uint.
  pose proof (DecimalPos.Unsigned.to_uint_nonnil p) as Hnil.
  destruct (Pos.to_uint p) eqn:Hd; [now elim Hnil | rewrite <- Hd; apply uint_digits ..].
Qed.

Lemma str_starts_with_digit (n : Z) :
  0 <= n -> exists c tail, str n = String c tail /\ is_digit c = true.
Proof.
  intros Hn. unfold str. destruct n as [|p|p]; [now exists "0"%char, "" | | lia].
  cbn [Z.to_int NilZero.string_of_int]. unfold NilZero.string_of_uint.
  pose proof (DecimalPos.Unsigned.to_uint_nonnil p) as Hnil.
  destruct (Pos.to_uint p); [now elim Hnil | ..];
    cbn [NilEmpty.string_of_uint]; eexists; eexists; (split; reflexivity).
Qed.

Lemma digit_is_no_space (c : ascii) : is_digit c = true -> is_space c = false.
Proof.
  unfold is_digit, is_space. cbv zeta. intros H.
  apply andb_true_iff in H. destruct H as [Hlo Hhi].
  apply N.leb_le in Hlo, Hhi.
  repeat match goal with
         | |- context [(?a <=? ?b)%N] =>
             destruct (N.leb_spec a b)
         | |- context [(?a =? ?b)%N] =>
             destruct (N.eqb_spec a b)
         end; simpl; try reflexivity; lia.
Qed.

(** *** Reading a count *)

Lemma strip_prefix_app (p text : string) : strip_prefix p (p ++ text) = Some text.
Proof.
  induction p as [|c p IH]; [reflexivity|].
  simpl. rewrite Ascii.eqb_refl. exact IH.
Qed.

Lemma skip_spaces_app (ws text : string) :
  forallb is_space (list_ascii_of_string ws) = true ->
  skip_spaces (ws ++ text) = skip_spaces text.
Proof.
  induction ws as [|c ws IH]; [reflexivity|].
  simpl. intros H. apply andb_true_iff in H. destruct H as [Hc Hws].
  rewrite Hc. now apply IH.
Qed.

Lemma search_count_here (marker output : string) (n : Z) :
  count_at marker output = Some n -> search_count marker output = Some n.
Proof. intros H. destruct output; simpl; rewrite H; reflexivity. Qed.


(** *** Counts are natural numbers *)

Lemma digits_value_nonneg (digits : string) :
  forall acc,
    0 <= acc ->
    forallb is_digit (list_ascii_of_string digits) = true ->
    0 <= digits_value acc digits.
Proof.
  unfold digits_value.
  induction digits as [|c digits IH]; intros acc Hacc Hall; [exact Hacc|].
  cbn [list_ascii_of_string fold_left forallb] in Hall |- *.
  apply andb_true_iff in Hall. destruct Hall as [Hc Hall].
  apply IH; [|exact Hall].
  unfold is_digit in Hc. cbv zeta in Hc. apply andb_true_iff in Hc.
  destruct Hc as [Hlo _]. apply N.leb_le in Hlo. unfold digit_value. lia.
Qed.

Lemma take_digits_are_digits (text : string) :
  forallb is_digit (list_ascii_of_string (take_digits text)) = true.
Proof.
  induction text as [|c text IH]; [reflexivity|].
  simpl. destruct (is_digit c) eqn:Hc; [|reflexivity].
  simpl. now rewrite Hc.
Qed.

Lemma search_count_nonneg (marker output : string) (n : Z) :
  search_count marker output = Some n -> 0 <= n.
Proof.
  assert (Hat : forall text k, count_at marker text = Some k -> 0 <= k).
  { intros text k. unfold count_at.
    destruct (strip_prefix marker text) as [rest|]; [|discriminate].
    destruct (String.eqb (take_digits (skip_spaces rest)) ""); [discriminate|].
    intros H. injection H as <-.
    apply (digits_value_nonneg _ 0); [lia | apply take_digits_are_digits]. }
  induction output as [|c output IH]; simpl.
  - destruct (count_at marker "") as [k|] eqn:Hk; [|discriminate].
    intros H. injection H as <-. exact (Hat _ _ Hk).
  - destruct (count_at marker (String c output)) as [k|] eqn:Hk; [|exact IH].
    intros H. injection H as <-. exact (Hat _ _ Hk).
Qed.

(** X13: the counts [run_fix] returns are never negative. *)
Theorem run_fix_counts_are_natural {World : Type} (env : Environment World)
    (DIRECTORY : string) (OSV_FIX_ARGS : list string) (n : Z)
    (blocklist s : list string) (w w' : World) (c : list string)
    (rem unf : option Z) :
  run_fix env DIRECTORY OSV_FIX_ARGS n blocklist s w = (w', inr (c, rem, unf)) ->
  (forall k, rem = Some k -> 0 <= k) /\ (forall k, unf = Some k -> 0 <= k).
Proof.
  unfold run_fix.
  destruct (git_checkout env w) as [w1 status].
  destruct (status =? 0); [|discriminate].
  destruct (osv_scanner_fix env _ w1) as [w2 res].
  unfold parse_output. intros H. injection H as _ _ Hrem Hunf.
  split; intros k Hk; subst.
  - exact (search_count_nonneg _ _ _ Hk).
  - exact (search_count_nonneg _ _ _ Hk).
Qed.

(** *** The command line *)

Lemma append_cancel (p q suffix : string) : p ++ suffix = q ++ suffix -> p = q.
Proof.
  intros H. apply String.eqb_eq.
  rewrite <- (Runs.append_eqb_cancel p q suffix). now apply String.eqb_eq.
Qed.

Lemma exclusions_injective (blocklist blocklist' : list string) :
  flat_map (fun package_name => ["--upgrade-config"; package_name ++ ":none"])
    blocklist
  = flat_map (fun package_name => ["--upgrade-config"; package_name ++ ":none"])
      blocklist' ->
  blocklist = blocklist'.
Proof.
  revert blocklist'.
  induction blocklist as [|p blocklist IH]; intros [|q blocklist'];
    cbn [flat_map app]; intros H; try discriminate; [reflexivity|].
  injection H as Hpq Hrest.
  apply (append_cancel p q ":none") in Hpq. apply IH in Hrest. congruence.
Qed.

(** X14: the command line of the fixer tells the budget and the blocklist:
    for the same project, arguments and strategy, two command lines are
    equal only when the budgets and the blocklists are. *)
Theorem fix_command_injective (DIRECTORY : string) (OSV_FIX_ARGS s : list string)
    (n n' : Z) (blocklist blocklist' : list string) :
  fix_command DIRECTORY OSV_FIX_ARGS n blocklist s
  = fix_command DIRECTORY OSV_FIX_ARGS n' blocklist' s ->
  n = n' /\ blocklist = blocklist'.
Proof.
  unfold fix_command.
  destruct (n =? 0) eqn:Hn; destruct (n' =? 0) eqn:Hn';
    rewrite <- ?app_assoc; intros H; apply app_inv_head in H;
    repeat (apply app_inv_head in H).
  - apply Z.eqb_eq in Hn, Hn'. split; [congruence | now apply exclusions_injective].
  - exfalso. destruct blocklist; cbn [flat_map app] in H; discriminate.
  - exfalso. destruct blocklist'; cbn [flat_map app] in H; discriminate.
  - cbn [app] in H. injection H as Hstr Hrest.
    split; [now apply str_injective | now apply exclusions_injective].
Qed.

(** *** Reading the upgrades *)

Lemma lacks_app (c : ascii) (a b : string) :
  lacks c (a ++ b) = lacks c a && lacks c b.
Proof.
  unfold lacks. induction a as [|x a IH]; [reflexivity|].
  simpl. rewrite IH. now rewrite andb_assoc.
Qed.

Lemma split_on_nonempty (sep : ascii) (text : string) : split_on sep text <> [].
Proof.
  destruct text as [|c text]; simpl; [discriminate|].
  destruct (Ascii.eqb c sep); [discriminate|].
  destruct (split_on sep text); discriminate.
Qed.

Lemma split_on_lacks (sep : ascii) (text : string) :
  lacks sep text = true -> split_on sep text = [text].
Proof.
  unfold lacks. induction text as [|c text IH]; [reflexivity|].
  simpl. intros H. apply andb_true_iff in H. destruct H as [Hc Htext].
  apply negb_true_iff in Hc. rewrite Hc, (IH Htext). reflexivity.
Qed.

Lemma split_on_app (sep : ascii) (a b : string) :
  split_on sep (a ++ String sep b) = (split_on sep a ++ split_on sep b)%list.
Proof.
  induction a as [|c a IH]; simpl.
  - now rewrite Ascii.eqb_refl.
  - destruct (Ascii.eqb c sep); [now rewrite IH|].
    rewrite IH. pose proof (split_on_nonempty sep a) as Hne.
    destruct (split_on sep a); [now elim Hne | reflexivity].
Qed.

(** Splitting at a separator and joining again gives the text back. *)
Lemma join_split (sep : ascii) (text : string) :
  join sep (split_on sep text) = text.
Proof.
  induction text as [|c text IH]; [reflexivity|].
  simpl. destruct (Ascii.eqb_spec c sep) as [-> | Hc].
  - pose proof (split_on_nonempty sep text) as Hne.
    destruct (split_on sep text) as [|f fs]; [now elim Hne|].
    cbn [join]. cbn [join] in IH. simpl. now rewrite IH.
  - pose proof (split_on_nonempty sep text) as Hne.
    destruct (split_on sep text) as [|f fs]; [now elim Hne|].
    destruct fs as [|g fs]; cbn [join] in IH |- *; simpl; now rewrite <- IH.
Qed.

Lemma first_group_of_fields (name from to : string) :
  lacks comma from = true -> lacks comma to = true ->
  first_group (name ++ "," ++ from ++ "," ++ to) = Some name.
Proof.
  intros Hfrom Hto. unfold first_group.
  change (name ++ "," ++ from ++ "," ++ to)
    with (name ++ String comma (from ++ String comma to)).
  rewrite split_on_app, split_on_app, (split_on_lacks comma from Hfrom),
    (split_on_lacks comma to Hto).
  pose proof (split_on_nonempty comma name) as Hne.
  assert (Hlen : (3 <=? List.length (split_on comma name ++ [from] ++ [to]))%nat = true).
  { apply Nat.leb_le. rewrite !length_app. simpl.
    destruct (split_on comma name); [now elim Hne | simpl; lia]. }
  rewrite Hlen.
  rewrite app_assoc, removelast_last, removelast_last, join_split. reflexivity.
Qed.

Lemma upgraded_in_line_here (line name : string) :
  upgraded_at line = Some name -> upgraded_in_line line = Some name.
Proof.
  intros H. destruct line as [|c line]; [discriminate|].
  cbn [upgraded_in_line]. rewrite H. reflexivity.
Qed.

Lemma upgraded_line_is_read (name from to : string) :
  lacks comma from = true -> lacks comma to = true ->
  upgraded_in_line (upgraded_line name from to) = Some name.
Proof.
  intros Hfrom Hto. apply upgraded_in_line_here.
  unfold upgraded_at, upgraded_line.
  change ("UPGRADED-PACKAGE: " ++ name ++ "," ++ from ++ "," ++ to)
    with (UPGRADED_PACKAGE ++ (name ++ "," ++ from ++ "," ++ to)).
  rewrite strip_prefix_app. now apply first_group_of_fields.
Qed.

Lemma find_upgraded_line (line rest : string) :
  lacks newline line = true ->
  find_upgraded (line ++ String newline rest)
  = (match upgraded_in_line line with
     | Some name => [name]
     | None => []
     end ++ find_upgraded rest)%list.
Proof.
  intros Hline. unfold find_upgraded.
  rewrite split_on_app, (split_on_lacks newline line Hline), flat_map_app.
  cbn [flat_map]. now rewrite app_nil_r.
Qed.

(** X15: an output made of upgrade lines gives the packages of the lines,
    in their order: the name is everything before the last two commas of
    the line, so it is read whole when the two versions hold no comma. *)
Theorem upgrades_are_read_in_order (upgrades : list (string * string * string)) :
  (forall name from to,
      In (name, from, to) upgrades ->
      lacks newline name = true
      /\ lacks newline from = true /\ lacks comma from = true
      /\ lacks newline to = true /\ lacks comma to = true) ->
  find_upgraded
    (unlines (map (fun u => upgraded_line (fst (fst u)) (snd (fst u)) (snd u))
                  upgrades))
  = map (fun u => fst (fst u)) upgrades.
Proof.
  induction upgrades as [|[[name from] to] upgrades IH]; intros Hwell;
    [reflexivity|].
  destruct (Hwell name from to (or_introl eq_refl))
    as [Hn [Hfn [Hfc [Htn Htc]]]].
  cbn [map unlines fst snd].
  rewrite find_upgraded_line.
  - rewrite (upgraded_line_is_read name from to Hfc Htc), IH; [reflexivity|].
    intros name' from' to' Hin. apply Hwell. now right.
  - unfold upgraded_line. rewrite !lacks_app, Hn, Hfn, Htn. reflexivity.
Qed.

End TextFacts.

(** ** The script *)

Section ScriptFacts.

Context {World : Type}.
Variable git_rev_parse : string -> World -> World * Z.
Variable programs : string -> Environment World.

Local Abbreviation script := (script git_rev_parse programs).


End ScriptFacts.

(** ** The further properties on concrete runs *)

Module MoreRuns.

Import Scenarios.
Local Open Scope string_scope.
Local Open Scope Z_scope.


(** X2, witness: the fixer fails without output. *)
Lemma mute_failure_returns_at_once :
  run_loop mute_failure_env project [] 1 in_place tt
  = (tt, Returned ([], None, None, [])).
Proof.
  apply (nothing_to_fix_returns_at_once mute_failure_env project [] in_place
           tt tt None None 0).
  reflexivity.
Defined.

(** X3, witness: the fixer reports four unfixable vulnerabilities and the
    run that accepts its upgrade at once returns none. *)
Lemma reported_unfixable_is_dropped :
  run_loop unfixable_reported_env project [] 1 in_place tt
  = (tt, Returned (["pkgA"], Some 1, None, [])).
Proof.
  apply (all_at_once_is_accepted unfixable_reported_env project [] in_place
           tt tt tt ["pkgA"] (Some 1) (Some 4) 0).
  - vm_compute. reflexivity.
  - discriminate.
  - reflexivity.
Defined.

(** X4, witness: rounds 1 and 3 of scenario C. *)
Lemma scenario_C_budget :
  1 <= n_patches scenario_C_round3 <= 1 + Z.of_nat (3 - 1).
Proof.
  apply (budget_grows_slowly (scripted_env scenario_C) project [] in_place
           initial_state 0%nat 1 3 1%nat 3%nat
           {| applied_changes := []; blocklist_entries := []; n_patches := 1;
              remaining_vulns := None; total_unfixable := Some 4 |}
           scenario_C_round3).
  - lia.
  - vm_compute. reflexivity.
  - vm_compute. reflexivity.
Defined.

(** X5, witness: [pkgB] on the blocklist of scenario C. *)
Lemma scenario_C_pkgB_was_blamed :
  exists j wj stj w1 c rem unf w3,
    (j < 3)%nat
    /\ state_at (scripted_env scenario_C) project [] j in_place initial_state 0%nat
       = Some (wj, stj)
    /\ run_fix (scripted_env scenario_C) project []
         (n_patches stj) (blocklist_entries stj) in_place wj
       = (w1, inr (c, rem, unf))
    /\ validate (scripted_env scenario_C) w1 = (w3, false)
    /\ 1 <= n_patches stj
    /\ In "pkgB" c /\ ~ In "pkgB" (applied_changes stj).
Proof.
  apply (blocklist_entries_were_blamed (scripted_env scenario_C) project []
           in_place 0%nat 3 3%nat scenario_C_round3 "pkgB").
  - vm_compute. reflexivity.
  - now left.
Defined.

Lemma retracting_honours (n : Z) (blocklist : list string) (w0 w1 : list string)
    (c : list string) (rem unf : option Z) :
  run_fix retracting_env project [] n blocklist in_place w0 = (w1, inr (c, rem, unf)) ->
  forall x, In x c -> ~ In x blocklist.
Proof.
  intros Hfix.
  destruct (Runs.retracting_fix n blocklist w0) as [c' [Hfix' [_ Hc']]].
  rewrite Hfix in Hfix'. injection Hfix' as _ -> _ _. exact Hc'.
Qed.

(** X6, witness: the fixer that honours the exclusions and retracts. *)
Lemma retracting_run_keeps_apart :
  ~ In "pkgA" (blocklist_entries retracting_stuck).
Proof.
  apply (proj1 (applied_and_blocklist_disjoint retracting_env project [] in_place
                  retracting_honours)
           [] 4%nat [] retracting_stuck).
  - vm_compute. reflexivity.
  - now left.
Defined.

(** X7, witness: the selector on scenario B. *)
Lemma scenario_B_selected_is_least :
  exists best',
    select (scripted_env scenario_B) project [] 10 PATCH_STRATEGIES initial_best 0%nat
    = (4%nat, Returned best')
    /\ best_remaining best' <= best_remaining initial_best
    /\ (forall s r k,
          In (s, r) (combine PATCH_STRATEGIES
                       [(["pkgA"], Some 2, Some 0, []); ([], None, None, [])]) ->
          eligible r k -> best_remaining best' <= k).
Proof.
  apply (selected_remaining_is_least (scripted_env scenario_B) project [] 10
           PATCH_STRATEGIES initial_best 0%nat 4%nat).
  vm_compute. reflexivity.
Defined.

(** X8, witness: two strategies leave three vulnerabilities each and the
    first one is kept. *)
Lemma tie_keeps_in_place :
  select (scripted_env tie) project [] 5 PATCH_STRATEGIES initial_best 0%nat
  = (2%nat, Returned (snapshot ["--strategy=in-place"] ["pkgA"] 3 None [])).
Proof.
  apply (first_least_strategy_wins (scripted_env tie) project [] 5
           PATCH_STRATEGIES initial_best 0%nat 2%nat
           [(["pkgA"], Some 3, None, []); (["pkgA"], Some 3, None, [])]
           [] [(["--strategy=relock"], (["pkgA"], Some 3, None, []))]).
  - vm_compute. reflexivity.
  - reflexivity.
  - discriminate.
  - reflexivity.
  - intros s' r' k' [].
  - intros s' r' k' [Heq | []] [_ Hk].
    injection Heq as _ <-. simpl in Hk. injection Hk as <-. lia.
Defined.





(** X13, witness: the counts of the failing fixer. *)
Lemma failing_fixer_counts_are_natural :
  (forall k, Some 3 = Some k -> 0 <= k) /\ (forall k, Some 1 = Some k -> 0 <= k).
Proof.
  apply (TextFacts.run_fix_counts_are_natural (constant_env failing_fixer 0 0)
           project [] 0 [] in_place tt tt ["pkgA"] (Some 3) (Some 1)).
  vm_compute. reflexivity.
Defined.

(** X14, witness: two blocklists and their command lines. *)
Lemma other_blocklist_other_command :
  fix_command project ["--min-severity=7"] 2 ["pkgB"] in_place
  <> fix_command project ["--min-severity=7"] 2 ["pkgB"; "pkgA"] in_place.
Proof.
  intros Hsame.
  apply (TextFacts.fix_command_injective project ["--min-severity=7"] in_place
           2 2 ["pkgB"] ["pkgB"; "pkgA"]) in Hsame.
  destruct Hsame as [_ Hsame]. discriminate.
Defined.

(** X15, witness: two upgrades, one of a package with a comma in its
    name. *)
Lemma two_upgrades_are_read :
  PyText.find_upgraded
    (unlines (map (fun u => upgraded_line (fst (fst u)) (snd (fst u)) (snd u))
                  [("lodash", "4.17.20", "4.17.21"); ("a,b", "1.0.0", "1.0.1")]))
  = map (fun u => fst (fst u))
        [("lodash", "4.17.20", "4.17.21"); ("a,b", "1.0.0", "1.0.1")].
Proof.
  apply (TextFacts.upgrades_are_read_in_order
           [("lodash", "4.17.20", "4.17.21"); ("a,b", "1.0.0", "1.0.1")]).
  intros name from to [H | [H | []]]; injection H as <- <- <-;
    repeat split; reflexivity.
Defined.


End MoreRuns.

(** ** The check of Alpine version fixtures *)

Module AlpineFacts.

Import Alpine.
Local Open Scope string_scope.
Local Open Scope Z_scope.

(** *** The dictionary of the cache *)

Lemma dict_get_set_same (key : string) (value : bool) (d : list (string * bool)) :
  dict_get key (dict_set key value d) = Some value.
Proof.
  induction d as [|[k v] d IH]; simpl.
  - now rewrite String.eqb_refl.
  - destruct (String.eqb k key) eqn:Hk; simpl; rewrite Hk; [reflexivity | exact IH].
Qed.

Lemma dict_get_set_other (key other : string) (value : bool)
    (d : list (string * bool)) :
  key <> other -> dict_get other (dict_set key value d) = dict_get other d.
Proof.
  intros Hne. induction d as [|[k v] d IH]; simpl.
  - apply String.eqb_neq in Hne. now rewrite Hne.
  - destruct (String.eqb k key) eqn:Hk; simpl.
    + apply String.eqb_eq in Hk. subst k.
      apply String.eqb_neq in Hne. now rewrite Hne.
    + destruct (String.eqb k other); [reflexivity | exact IH].
Qed.

Section Facts.

Context {World : Type}.
Variable programs : Programs World.

Local Abbreviation start_docker_container := (start_docker_container programs).
Local Abbreviation compare_command := (compare_command programs).
Local Abbreviation comparer_compare := (comparer_compare programs).
Local Abbreviation compare := (compare programs).
Local Abbreviation compare_versions_from := (compare_versions_from programs).
Local Abbreviation compare_versions := (compare_versions programs).

Lemma start_keeps_cache (self self1 : Comparer) (w w1 : World) :
  start_docker_container self w = (w1, inr self1) -> cache self1 = cache self.
Proof.
  unfold start_docker_container.
  destruct (docker_container self).
  - intros H. injection H as _ <-. reflexivity.
  - destruct (subprocess_run programs _ w) as [w2 out].
    destruct (returncode out =? 0); [|discriminate].
    intros H. injection H as _ <-. reflexivity.
Qed.

Lemma command_keeps_cache (self self1 : Comparer) (a b : string) (w w1 : World)
    (cmd : list string) :
  compare_command self a b w = (w1, inr (self1, cmd)) -> cache self1 = cache self.
Proof.
  unfold compare_command.
  destruct (String.eqb (compare_method self) "run").
  - intros H. injection H as _ <- _. reflexivity.
  - destruct (start_docker_container self w) as [w2 [e | self2]] eqn:Hstart;
      [discriminate|].
    intros H. injection H as _ <- _. exact (start_keeps_cache _ _ _ _ Hstart).
Qed.

(** A comparison answered from the cache runs nothing. *)
Lemma cache_hit (self : Comparer) (a op b : string) (w : World) (r : bool) :
  dict_get (a ++ " " ++ op ++ " " ++ b) (cache self) = Some r ->
  comparer_compare self a op b w = (w, self, inr r).
Proof. intros H. unfold comparer_compare. rewrite H. reflexivity. Qed.

(** A comparison that returns leaves its result in the cache. *)
Lemma cache_filled (self self1 : Comparer) (a op b : string) (w w1 : World)
    (r : bool) :
  comparer_compare self a op b w = (w1, self1, inr r) ->
  dict_get (a ++ " " ++ op ++ " " ++ b) (cache self1) = Some r.
Proof.
  unfold comparer_compare.
  destruct (dict_get (a ++ " " ++ op ++ " " ++ b) (cache self)) as [r0|] eqn:Hget.
  - intros H. injection H as _ <- <-. exact Hget.
  - destruct (compare_command self a b w) as [w2 [e | [self2 cmd]]]; [discriminate|].
    destruct (subprocess_run programs cmd w2) as [w3 out].
    destruct (returncode out =? 0); [|discriminate].
    unfold save_to_cache. intros H. injection H as _ <- <-. simpl.
    apply dict_get_set_same.
Qed.

(** No comparison changes a result that the cache holds. *)
Lemma cache_kept (self self1 : Comparer) (a op b : string) (w w1 : World)
    (o : exception + bool) (key : string) (r : bool) :
  comparer_compare self a op b w = (w1, self1, o) ->
  dict_get key (cache self) = Some r ->
  dict_get key (cache self1) = Some r.
Proof.
  unfold comparer_compare. intros H Hkey.
  destruct (dict_get (a ++ " " ++ op ++ " " ++ b) (cache self)) as [r0|] eqn:Hget.
  - injection H as _ <- _. exact Hkey.
  - destruct (compare_command self a b w) as [w2 [e | [self2 cmd]]] eqn:Hcmd.
    + injection H as _ <- _. exact Hkey.
    + apply command_keeps_cache in Hcmd.
      destruct (subprocess_run programs cmd w2) as [w3 out].
      destruct (returncode out =? 0).
      * unfold save_to_cache in H. injection H as _ <- _. simpl.
        rewrite Hcmd, dict_get_set_other; [exact Hkey|].
        intros Heq.
        apply (f_equal (fun k => dict_get k (cache self))) in Heq.
        cbv beta in Heq. rewrite Hkey in Heq.
        pose proof (eq_trans (eq_sym Hget) Heq) as Habsurd. discriminate.
      * injection H as _ <- _. now rewrite Hcmd.
Qed.

(** X17: a comparison that returned a result is answered from the cache from
    then on: asked again, at once or after any other comparison, whatever
    that one did, it returns the same result and runs no program. *)
Theorem comparison_is_cached (self self1 : Comparer) (a op b : string)
    (w w1 : World) (r : bool) :
  comparer_compare self a op b w = (w1, self1, inr r) ->
  (forall w2, comparer_compare self1 a op b w2 = (w2, self1, inr r))
  /\ (forall a' op' b' w2 w3 self3 o,
        comparer_compare self1 a' op' b' w2 = (w3, self3, o) ->
        forall w4, comparer_compare self3 a op b w4 = (w4, self3, inr r)).
Proof.
  intros H. apply cache_filled in H. split.
  - intros w2. now apply cache_hit.
  - intros a' op' b' w2 w3 self3 o Hother w4.
    apply cache_hit. exact (cache_kept _ _ _ _ _ _ _ _ _ _ Hother H).
Qed.

(** *** The check *)

Lemma check_never_fails (lines : list string) (select : string) :
  forall out self w w' self' out' flag,
    compare_versions_from lines select false out self w
    = (w', self', out', inr flag) ->
    flag = false.
Proof.
  induction lines as [|line lines IH]; intros out self w w' self' out' flag H;
    cbn [Alpine.compare_versions_from] in H.
  - now injection H as _ _ _ <-.
  - destruct (String.eqb (strip line) "" || startswith (strip line) "#"
              || startswith (strip line) "//").
    + exact (IH _ _ _ _ _ _ _ H).
    + destruct (PyText.split_on " " (strip (strip line)))
        as [|v1 [|op [|v2 [|extra fields]]]]; try discriminate.
      destruct (compare self v1 op v2 w) as [[w1 self1] [e | r]]; [discriminate|].
      assert (Hflag : (if negb r then r else false) = false) by now destruct r.
      rewrite Hflag in H.
      destruct (String.eqb select "failures" && r);
        [exact (IH _ _ _ _ _ _ _ H)|].
      destruct (String.eqb select "successes" && negb r);
        exact (IH _ _ _ _ _ _ _ H).
Qed.

(** X18: [compare_versions] never returns [True]: whatever the lines, the
    selection and the answers of the comparer are, the flag it returns is
    [False], also when comparisons failed. *)
Theorem compare_versions_returns_false (lines : list string) (select : string)
    (self self' : Comparer) (w w' : World) (out : list printed) (flag : bool) :
  compare_versions lines select self w = (w', self', out, inr flag) ->
  flag = false.
Proof. unfold compare_versions. apply check_never_fails. Qed.

Lemma selection_filters (select : string) (lines : list string) :
  forall flag out_all out_sel self w w' self' res o,
    compare_versions_from lines "all" flag out_all self w = (w', self', res, o) ->
    exists added,
      res = (out_all ++ added)%list
      /\ compare_versions_from lines select flag out_sel self w
         = (w', self', (out_sel ++ filter (shown select) added)%list, o).
Proof.
  induction lines as [|line lines IH];
    intros flag out_all out_sel self w w' self' res o H;
    cbn [Alpine.compare_versions_from] in H |- *.
  - injection H as <- <- <- <-. exists []. now rewrite !app_nil_r.
  - destruct (String.eqb (strip line) "" || startswith (strip line) "#"
              || startswith (strip line) "//").
    + destruct (is_unsupported_comparison (strip (uncomment (strip line)))).
      * destruct (IH flag _ (out_sel ++ [SkippedLine (strip (uncomment (strip line)))])%list
                    _ _ _ _ _ _ H) as [added [Hres Hsel]].
        exists (SkippedLine (strip (uncomment (strip line))) :: added).
        rewrite Hres, Hsel, <- !app_assoc. split; reflexivity.
      * exact (IH flag _ out_sel _ _ _ _ _ _ H).
    + destruct (PyText.split_on " " (strip (strip line)))
        as [|v1 [|op [|v2 [|extra fields]]]];
        try (injection H as <- <- <- <-; exists []; now rewrite !app_nil_r).
      destruct (compare self v1 op v2 w) as [[w1 self1] [e | r]].
      * injection H as <- <- <- <-. exists []. now rewrite !app_nil_r.
      * change (String.eqb "all" "failures") with false in H.
        change (String.eqb "all" "successes") with false in H.
        cbn [andb] in H.
        destruct (IH _ _ (if shown select (ResultLine r (strip line))
                          then (out_sel ++ [ResultLine r (strip line)])%list
                          else out_sel) _ _ _ _ _ _ H) as [added [Hres Hsel]].
        exists (ResultLine r (strip line) :: added).
        rewrite Hres, <- app_assoc. split; [reflexivity|].
        cbn [filter]. unfold shown in Hsel |- * at 1.
        destruct (String.eqb select "failures" && r); cbn [orb negb] in Hsel |- *;
          [exact Hsel|].
        destruct (String.eqb select "successes" && negb r); cbn [negb] in Hsel |- *;
          [exact Hsel|].
        rewrite Hsel, <- app_assoc. reflexivity.
Qed.

(** X19: the selection only filters what is printed: with any selection the
    check runs the same comparisons, ends in the same way and prints, of the
    lines it prints with ["all"], those the selection shows, in the same
    order. *)
Theorem selection_only_filters (lines : list string) (select : string)
    (self self' : Comparer) (w w' : World) (out : list printed)
    (o : exception + bool) :
  compare_versions lines "all" self w = (w', self', out, o) ->
  compare_versions lines select self w
  = (w', self', filter (shown select) out, o).
Proof.
  unfold compare_versions. intros H.
  destruct (selection_filters select lines false [] [] self w w' self' out o H)
    as [added [Hres Hsel]].
  simpl in Hres. subst out. exact Hsel.
Qed.

Lemma comments_skipped_from (lines : list string) (select : string) :
  Forall (fun line => is_comment line = true) lines ->
  forall flag out self w,
    compare_versions_from lines select flag out self w = (w, self, out, inr flag).
Proof.
  induction 1 as [|line lines Hline _ IH]; intros flag out self w;
    cbn [Alpine.compare_versions_from]; [reflexivity|].
  unfold is_comment in Hline. rewrite Hline.
  change (is_unsupported_comparison (strip (uncomment (strip line)))) with false.
  apply IH.
Qed.

(** X20: blank lines and lines that start with [#] or [//] after stripping
    are passed over: a fixture made of such lines runs no program, leaves
    the comparer as it is, prints nothing and returns [False]. *)
Theorem comments_are_passed_over (lines : list string) (select : string)
    (self : Comparer) (w : World) :
  Forall (fun line => is_comment line = true) lines ->
  compare_versions lines select self w = (w, self, [], inr false).
Proof. intros H. unfold compare_versions. now apply comments_skipped_from. Qed.

End Facts.

(** *** Stripping and splitting a generated line *)

Lemma rstrip_spaces (ws : string) :
  forallb PyText.is_space (list_ascii_of_string ws) = true -> rstrip ws = "".
Proof.
  induction ws as [|c ws IH]; [reflexivity|].
  simpl. intros H. apply andb_true_iff in H. destruct H as [Hc Hws].
  now rewrite (IH Hws), Hc.
Qed.

Lemma rstrip_app_spaces (text ws : string) :
  forallb PyText.is_space (list_ascii_of_string ws) = true ->
  rstrip (text ++ ws) = rstrip text.
Proof.
  intros Hws. induction text as [|c text IH]; simpl.
  - now apply rstrip_spaces.
  - now rewrite IH.
Qed.

Lemma rstrip_no_space (text : string) :
  forallb (fun c => negb (PyText.is_space c)) (list_ascii_of_string text) = true ->
  rstrip text = text.
Proof.
  induction text as [|c text IH]; [reflexivity|].
  simpl. intros H. apply andb_true_iff in H. destruct H as [Hc Htext].
  apply negb_true_iff in Hc. rewrite (IH Htext), Hc.
  now destruct text.
Qed.

Lemma rstrip_app_kept (text tail : string) :
  rstrip tail <> "" -> rstrip (text ++ tail) = text ++ rstrip tail.
Proof.
  intros Hkept. induction text as [|c text IH]; [reflexivity|].
  simpl. rewrite IH.
  destruct (text ++ rstrip tail) eqn:Happ; [|reflexivity].
  destruct text; [now elim Hkept | discriminate].
Qed.

Lemma plain_facts (version : string) :
  plain version = true ->
  (exists c rest, version = String c rest /\ PyText.is_space c = false)
  /\ forallb (fun c => negb (PyText.is_space c)) (list_ascii_of_string version) = true
  /\ startswith version "#" = false
  /\ startswith version "//" = false.
Proof.
  unfold plain. intros H.
  apply andb_true_iff in H. destruct H as [H Hslash].
  apply andb_true_iff in H. destruct H as [H Hhash].
  apply andb_true_iff in H. destruct H as [Hne Hall].
  apply negb_true_iff in Hslash, Hhash.
  split; [|auto].
  destruct version as [|c rest]; [discriminate|].
  exists c, rest. split; [reflexivity|].
  simpl in Hall. apply andb_true_iff in Hall. destruct Hall as [Hc _].
  now apply negb_true_iff in Hc.
Qed.

Lemma no_space_lacks_blank (text : string) :
  forallb (fun c => negb (PyText.is_space c)) (list_ascii_of_string text) = true ->
  lacks " "%char text = true.
Proof.
  unfold lacks. induction text as [|c text IH]; [reflexivity|].
  simpl. intros H. apply andb_true_iff in H. destruct H as [Hc Htext].
  rewrite (IH Htext), andb_true_r.
  destruct (Ascii.eqb_spec c " "%char) as [-> | Hne]; [discriminate | reflexivity].
Qed.

(** What the check makes of a generated line. *)
Lemma generated_line_is_parsed (a b : string) :
  plain a = true -> plain b = true ->
  strip (a ++ " < " ++ b ++ "
") = a ++ " < " ++ b
  /\ strip (a ++ " < " ++ b) = a ++ " < " ++ b
  /\ is_comment (a ++ " < " ++ b ++ "
") = false
  /\ PyText.split_on " " (a ++ " < " ++ b) = [a; "<"; b].
Proof.
  intros Ha Hb.
  destruct (plain_facts a Ha) as [[ca [ta [Hca Hsa]]] [Hna [Hhash Hslash]]].
  destruct (plain_facts b Hb) as [[cb [tb [Hcb Hsb]]] [Hnb _]].
  assert (Hrb : rstrip b = b) by now apply rstrip_no_space.
  assert (Hb_ne : b <> "") by (rewrite Hcb; discriminate).
  assert (Hskip : forall tail, PyText.skip_spaces (a ++ tail) = a ++ tail).
  { intros tail. rewrite Hca. simpl. now rewrite Hsa. }
  assert (Hstrip1 : strip (a ++ " < " ++ b ++ "
") = a ++ " < " ++ b).
  { unfold strip. rewrite Hskip.
    rewrite rstrip_app_kept.
    - f_equal. change (" < " ++ b ++ "
") with (" < " ++ (b ++ "
")).
      rewrite rstrip_app_kept.
      + now rewrite (rstrip_app_spaces b), Hrb.
      + now rewrite (rstrip_app_spaces b), Hrb.
    - change (" < " ++ b ++ "
") with (" < " ++ (b ++ "
")).
      rewrite rstrip_app_kept.
      + discriminate.
      + now rewrite (rstrip_app_spaces b), Hrb. }
  assert (Hstrip2 : strip (a ++ " < " ++ b) = a ++ " < " ++ b).
  { unfold strip. rewrite Hskip.
    rewrite rstrip_app_kept.
    - f_equal. rewrite rstrip_app_kept; [now rewrite Hrb | now rewrite Hrb].
    - rewrite rstrip_app_kept; [discriminate | now rewrite Hrb]. }
  split; [exact Hstrip1|]. split; [exact Hstrip2|]. split.
  - unfold is_comment. rewrite Hstrip1.
    assert (Hfirst : forall tail, startswith (a ++ tail) "#" = startswith a "#").
    { intros tail. rewrite Hca. unfold startswith.
      cbn [append PyText.strip_prefix].
      destruct (Ascii.eqb "#" ca); reflexivity. }
    rewrite Hfirst, Hhash.
    assert (Hne : String.eqb (a ++ " < " ++ b) "" = false)
      by (rewrite Hca; reflexivity).
    rewrite Hne. cbn [orb].
    rewrite Hca in Hslash |- *. unfold startswith in Hslash |- *.
    cbn [append PyText.strip_prefix] in Hslash |- *.
    destruct (Ascii.eqb "/" ca); [|reflexivity].
    destruct ta as [|c2 ta']; [reflexivity|].
    cbn [append PyText.strip_prefix] in Hslash |- *.
    destruct (Ascii.eqb "/" c2); [discriminate | reflexivity].
  - change (a ++ " < " ++ b) with (a ++ String " " ("<" ++ String " " b)).
    rewrite !TextFacts.split_on_app.
    rewrite (TextFacts.split_on_lacks " "%char a (no_space_lacks_blank a Hna)).
    rewrite (TextFacts.split_on_lacks " "%char b (no_space_lacks_blank b Hnb)).
    reflexivity.
Qed.

Section Fixture.

Context {World : Type}.
Variable programs : Programs World.

Local Abbreviation comparer_compare := (comparer_compare programs).
Local Abbreviation compare := (compare programs).
Local Abbreviation compare_versions_from := (compare_versions_from programs).
Local Abbreviation compare_versions := (compare_versions programs).

Lemma generated_line_checked (a b : string) (rest : list string) (flag r : bool)
    (out : list printed) (self : Comparer) (w : World) :
  plain a = true -> plain b = true ->
  dict_get (a ++ " < " ++ b) (cache self) = Some r ->
  compare_versions_from ((a ++ " < " ++ b ++ "
") :: rest) "all" flag out self w
  = compare_versions_from rest "all" (if negb r then r else flag)
      (out ++ [ResultLine r (a ++ " < " ++ b)])%list self w.
Proof.
  intros Ha Hb Hcache.
  destruct (generated_line_is_parsed a b Ha Hb) as [Hs1 [Hs2 [Hcomment Hsplit]]].
  cbn [Alpine.compare_versions_from].
  unfold is_comment in Hcomment. rewrite Hcomment, Hs1, Hs2, Hsplit.
  unfold compare. change (contains ["<"; "="; ">"] "<") with true. cbv iota.
  rewrite (cache_hit programs self a "<" b w r Hcache).
  reflexivity.
Qed.

Lemma generated_lines_checked (answer : string -> string -> bool)
    (self : Comparer) (w : World) (versions : list string) :
  forall previous out,
    plain previous = true ->
    Forall (fun v => plain v = true) versions ->
    (forall a b, In (a, b) (combine (previous :: versions) versions) ->
                 dict_get (a ++ " < " ++ b) (cache self) = Some (answer a b)) ->
    compare_versions_from (compares_after previous versions) "all" false out self w
    = (w, self,
       (out ++ map (fun pair => ResultLine (answer (fst pair) (snd pair))
                                  (fst pair ++ " < " ++ snd pair))
                   (combine (previous :: versions) versions))%list,
       inr false).
Proof.
  induction versions as [|version versions IH];
    intros previous out Hprevious Hversions Hcache.
  - simpl. now rewrite app_nil_r.
  - inversion Hversions as [|v vs Hversion Hrest]; subst.
    cbn [compares_after].
    change (is_unsupported_comparison (strip (previous ++ " < " ++ version ++ "
"))) with false. cbv iota.
    rewrite (generated_line_checked previous version _ false
               (answer previous version) out self w Hprevious Hversion).
    + assert (Hflag : (if negb (answer previous version)
                       then answer previous version else false) = false)
        by now destruct (answer previous version).
      rewrite Hflag, IH; [|exact Hversion | exact Hrest |].
      * cbn [combine map fst snd]. now rewrite <- app_assoc.
      * intros a b Hin. apply Hcache. now right.
    + apply Hcache. now left.
Qed.

(** X23: the lines generated for versions without whitespace are read back
    as the comparisons they were generated from: when the cache holds an
    answer for every two neighbours, the check of the generated lines looks
    up exactly those comparisons, prints each stripped line with its answer,
    in order, runs no program and returns [False]. *)
Theorem generated_fixture_is_read_back (answer : string -> string -> bool)
    (versions : list string) (self : Comparer) (w : World) :
  Forall (fun v => plain v = true) versions ->
  (forall a b, In (a, b) (combine versions (tl versions)) ->
               dict_get (a ++ " < " ++ b) (cache self) = Some (answer a b)) ->
  compare_versions (generate_version_compares versions) "all" self w
  = (w, self,
     map (fun pair => ResultLine (answer (fst pair) (snd pair))
                        (fst pair ++ " < " ++ snd pair))
         (combine versions (tl versions)),
     inr false).
Proof.
  intros Hplain Hcache. unfold compare_versions.
  destruct versions as [|first rest]; [reflexivity|].
  inversion Hplain as [|v vs Hfirst Hrest]; subst.
  exact (generated_lines_checked answer self w rest first [] Hfirst Hrest Hcache).
Qed.

End Fixture.

(** *** The generated lines *)

Lemma compares_after_pairs (previous : string) (versions : list string) :
  compares_after previous versions
  = map (fun pair => fst pair ++ " < " ++ snd pair ++ "
")
        (combine (previous :: versions) versions).
Proof.
  revert previous. induction versions as [|version versions IH]; intros previous;
    [reflexivity|].
  cbn [compares_after combine map fst snd].
  change (is_unsupported_comparison (strip (previous ++ " < " ++ version ++ "
"))) with false.
  cbv iota. now rewrite IH.
Qed.

(** X21: [generate_version_compares] gives one line for every two
    neighbours of the list, in order, each saying that the first is less
    than the second, and none of them commented out. *)
Theorem generated_lines_are_neighbours (versions : list string) :
  generate_version_compares versions
  = map (fun pair => fst pair ++ " < " ++ snd pair ++ "
")
        (combine versions (tl versions)).
Proof.
  destruct versions as [|first rest]; [reflexivity|].
  exact (compares_after_pairs first rest).
Qed.

Lemma fromkeys_spec (xs : list string) :
  forall seen,
    NoDup (fromkeys seen xs)
    /\ (forall x, In x (fromkeys seen xs) <-> In x xs /\ ~ In x seen).
Proof.
  induction xs as [|y xs IH]; intros seen; cbn [fromkeys].
  - split; [constructor | intros x; simpl; tauto].
  - destruct (contains seen y) eqn:Hseen.
    + apply contains_In in Hseen. destruct (IH seen) as [Hnd Hin].
      split; [exact Hnd|]. intros x. rewrite Hin. simpl.
      split; [tauto|]. intros [[-> | Hx] Hout]; [contradiction | tauto].
    + apply contains_not_In in Hseen. destruct (IH (y :: seen)) as [Hnd Hin].
      split.
      * constructor; [|exact Hnd]. rewrite Hin. simpl. tauto.
      * intros x. simpl. rewrite Hin. simpl.
        destruct (String.eqb_spec y x) as [-> | Hne]; [tauto|]. tauto.
Qed.

(** X22: [generate_package_compares] gives every comparison of every package
    once: its result has no repetition and holds exactly the lines that
    [generate_version_compares] gives for some package. *)
Theorem package_compares_are_unique (packages : list (string * list string)) :
  NoDup (generate_package_compares packages)
  /\ (forall line,
        In line (generate_package_compares packages)
        <-> exists package versions,
              In (package, versions) packages
              /\ In line (generate_version_compares versions)).
Proof.
  unfold generate_package_compares.
  destruct (fromkeys_spec
              (flat_map (fun item => generate_version_compares (snd item)) packages)
              []) as [Hnd Hin].
  split; [exact Hnd|].
  intros line. rewrite Hin, in_flat_map. split.
  - intros [[[package versions] [Hitem Hline]] _]. eauto.
  - intros [package [versions [Hitem Hline]]]. split; [|intros []].
    exists (package, versions). auto.
Qed.

(** *** The cache file *)

Lemma load_cache_from_app (lines more : list string) :
  forall cache ignored,
    load_cache_from (lines ++ more) cache ignored
    = match load_cache_from lines cache ignored with
      | inl e => inl e
      | inr (cache', ignored') => load_cache_from more cache' ignored'
      end.
Proof.
  induction lines as [|line lines IH]; intros cache ignored;
    cbn [load_cache_from app]; [reflexivity|].
  destruct (PyText.split_on "," (strip line)) as [|key [|result [|extra fields]]];
    try reflexivity.
  destruct (String.eqb result "True"); [apply IH|].
  destruct (String.eqb result "False"); apply IH.
Qed.

Lemma skip_spaces_starts (text : string) : starts_plain (PyText.skip_spaces text).
Proof.
  induction text as [|c text IH]; [exact I|].
  cbn [PyText.skip_spaces]. destruct (PyText.is_space c) eqn:Hc; [exact IH | exact Hc].
Qed.

Lemma strip_starts (text : string) : starts_plain (strip text).
Proof.
  unfold strip. pose proof (skip_spaces_starts text) as H.
  destruct (PyText.skip_spaces text) as [|c rest]; [exact I|].
  cbn [rstrip]. cbn [starts_plain] in H. rewrite H.
  destruct (rstrip rest); exact H.
Qed.

Lemma skip_spaces_plain (text tail : string) :
  starts_plain text -> PyText.skip_spaces tail = tail ->
  PyText.skip_spaces (text ++ tail) = text ++ tail.
Proof.
  destruct text as [|c text]; intros Hstart Htail; [exact Htail|].
  cbn [append PyText.skip_spaces]. cbn [starts_plain] in Hstart.
  now rewrite Hstart.
Qed.

Lemma lacks_skip_spaces (c : ascii) (text : string) :
  lacks c text = true -> lacks c (PyText.skip_spaces text) = true.
Proof.
  unfold lacks. induction text as [|x text IH]; [auto|].
  cbn [PyText.skip_spaces]. intros H. destruct (PyText.is_space x); [|exact H].
  cbn [list_ascii_of_string forallb] in H.
  apply andb_true_iff in H. now apply IH.
Qed.

Lemma lacks_rstrip (c : ascii) (text : string) :
  lacks c text = true -> lacks c (rstrip text) = true.
Proof.
  unfold lacks. induction text as [|x text IH]; [auto|].
  cbn [list_ascii_of_string forallb rstrip]. intros H.
  apply andb_true_iff in H. destruct H as [Hx Htext].
  specialize (IH Htext).
  destruct (rstrip text) as [|y kept].
  - destruct (PyText.is_space x); [reflexivity|].
    cbn [list_ascii_of_string forallb]. now rewrite Hx.
  - cbn [list_ascii_of_string forallb] in IH |- *. now rewrite Hx.
Qed.

Lemma lacks_strip (c : ascii) (text : string) :
  lacks c text = true -> lacks c (strip text) = true.
Proof. intros H. unfold strip. now apply lacks_rstrip, lacks_skip_spaces. Qed.

(** The three fields of a line, joined by blanks, are the line. *)
Lemma key_is_line (text a op b : string) :
  PyText.split_on " " text = [a; op; b] -> a ++ " " ++ op ++ " " ++ b = text.
Proof.
  intros H. pose proof (TextFacts.join_split " "%char text) as Hjoin.
  rewrite H in Hjoin. exact Hjoin.
Qed.

(** The line written for a result is loaded as that result. *)
Lemma saved_line_is_loaded (key : string) (result : bool)
    (cache : list (string * bool)) (ignored : list string) :
  starts_plain key -> lacks ","%char key = true ->
  load_cache_from [key ++ "," ++ str_bool result ++ "
"] cache ignored
  = inr (dict_set key result cache, ignored).
Proof.
  intros Hstart Hcomma. cbn [load_cache_from].
  assert (Hstrip : strip (key ++ "," ++ str_bool result ++ "
") = key ++ String "," (str_bool result)).
  { unfold strip. rewrite skip_spaces_plain;
      [|exact Hstart | now destruct result].
    rewrite rstrip_app_kept; [now destruct result|].
    destruct result; discriminate. }
  rewrite Hstrip, TextFacts.split_on_app,
    (TextFacts.split_on_lacks ","%char key Hcomma).
  now destruct result.
Qed.

Section CacheFile.

Context {World : Type}.
Variable programs : Programs World.

(** The lines of the cache file in a world: a write appends its line to
    them, and a run of docker leaves them. *)
Variable cache_file : World -> list string.
Hypothesis write_appends : forall line w,
  cache_file (cache_file_append programs line w) = (cache_file w ++ [line])%list.
Hypothesis run_keeps_file : forall cmd w,
  cache_file (fst (subprocess_run programs cmd w)) = cache_file w.

Local Abbreviation start_docker_container := (start_docker_container programs).
Local Abbreviation compare_command := (compare_command programs).
Local Abbreviation comparer_compare := (comparer_compare programs).
Local Abbreviation compare := (compare programs).
Local Abbreviation compare_versions_from := (compare_versions_from programs).
Local Abbreviation compare_versions := (compare_versions programs).

Lemma start_keeps_file (self : Comparer) (w w1 : World)
    (o : exception + Comparer) :
  start_docker_container self w = (w1, o) -> cache_file w1 = cache_file w.
Proof.
  unfold start_docker_container.
  destruct (docker_container self).
  - intros H. now injection H as <- _.
  - match goal with
    | |- context [subprocess_run programs ?cmd w] =>
        pose proof (run_keeps_file cmd w) as Hrun;
        destruct (subprocess_run programs cmd w) as [w2 out]
    end.
    cbn [fst] in Hrun.
    destruct (returncode out =? 0); intros H; injection H as <- _; exact Hrun.
Qed.

Lemma command_keeps_file (self : Comparer) (a b : string) (w w1 : World)
    (o : exception + (Comparer * list string)) :
  compare_command self a b w = (w1, o) -> cache_file w1 = cache_file w.
Proof.
  unfold compare_command.
  destruct (String.eqb (compare_method self) "run").
  - intros H. now injection H as <- _.
  - destruct (start_docker_container self w) as [w2 [e | self2]] eqn:Hstart;
      intros H; injection H as <- _; exact (start_keeps_file _ _ _ _ Hstart).
Qed.

(** A comparison keeps the cache file in step with the cache. *)
Lemma comparison_keeps_in_step (self self1 : Comparer) (a op b : string)
    (w w1 : World) (o : exception + bool) (ignored : list string) :
  starts_plain (a ++ " " ++ op ++ " " ++ b) ->
  lacks ","%char (a ++ " " ++ op ++ " " ++ b) = true ->
  load_cache (cache_file w) = inr (cache self, ignored) ->
  comparer_compare self a op b w = (w1, self1, o) ->
  load_cache (cache_file w1) = inr (cache self1, ignored).
Proof.
  intros Hstart Hcomma Hload. unfold comparer_compare.
  destruct (dict_get (a ++ " " ++ op ++ " " ++ b) (cache self)).
  - intros H. injection H as <- <- _. exact Hload.
  - destruct (compare_command self a b w) as [w2 [e | [self2 cmd]]] eqn:Hcmd.
    + intros H. injection H as <- <- _.
      now rewrite (command_keeps_file _ _ _ _ _ _ Hcmd).
    + pose proof (command_keeps_file _ _ _ _ _ _ Hcmd) as Hfile.
      apply (command_keeps_cache programs) in Hcmd.
      pose proof (run_keeps_file cmd w2) as Hrun.
      destruct (subprocess_run programs cmd w2) as [w3 out].
      cbn [fst] in Hrun.
      destruct (returncode out =? 0).
      * unfold save_to_cache. intros H. injection H as <- <- _.
        cbn [cache]. unfold load_cache in Hload |- *.
        rewrite write_appends, load_cache_from_app, Hrun, Hfile, Hload, Hcmd.
        now apply saved_line_is_loaded.
      * intros H. injection H as <- <- _.
        now rewrite Hrun, Hfile, Hcmd.
Qed.

Lemma check_keeps_in_step (ignored : list string) (select : string)
    (lines : list string) :
  Forall (fun line => lacks ","%char line = true) lines ->
  forall flag out self w w' self' out' o,
    load_cache (cache_file w) = inr (cache self, ignored) ->
    compare_versions_from lines select flag out self w = (w', self', out', o) ->
    load_cache (cache_file w') = inr (cache self', ignored).
Proof.
  induction 1 as [|line lines Hline _ IH];
    intros flag out self w w' self' out' o Hload H;
    cbn [Alpine.compare_versions_from] in H.
  - injection H as <- <- _ _. exact Hload.
  - destruct (String.eqb (strip line) "" || startswith (strip line) "#"
              || startswith (strip line) "//").
    + exact (IH _ _ _ _ _ _ _ _ Hload H).
    + destruct (PyText.split_on " " (strip (strip line)))
        as [|v1 [|op [|v2 [|extra fields]]]] eqn:Hsplit;
        try (injection H as <- <- _ _; exact Hload).
      apply key_is_line in Hsplit.
      assert (Hstep : forall w1 self1 o1,
                 compare self v1 op v2 w = (w1, self1, o1) ->
                 load_cache (cache_file w1) = inr (cache self1, ignored)).
      { intros w1 self1 o1. unfold compare.
        destruct (contains ["<"; "="; ">"] op).
        - apply comparison_keeps_in_step; [| |exact Hload]; rewrite Hsplit.
          + apply strip_starts.
          + now apply lacks_strip, lacks_strip.
        - intros Hc. injection Hc as <- <- _. exact Hload. }
      destruct (compare self v1 op v2 w) as [[w1 self1] [e | r]] eqn:Hcompare.
      * injection H as <- <- _ _. exact (Hstep _ _ _ eq_refl).
      * specialize (Hstep _ _ _ eq_refl).
        destruct (String.eqb select "failures" && r);
          [exact (IH _ _ _ _ _ _ _ _ Hstep H)|].
        destruct (String.eqb select "successes" && negb r);
          exact (IH _ _ _ _ _ _ _ _ Hstep H).
Qed.


Lemma broken_line_breaks_file (line : string) (lines : list string) :
  (forall cache ignored, load_cache_from [line] cache ignored = inl ValueError) ->
  forall cache ignored,
    load_cache_from (lines ++ [line]) cache ignored = inl ValueError.
Proof.
  intros Hline cache ignored. rewrite load_cache_from_app.
  destruct (load_cache_from lines cache ignored) as [e | [cache' ignored']] eqn:Hload;
    [|apply Hline].
  clear Hline. revert cache ignored Hload.
  induction lines as [|l lines IH]; intros cache ignored; cbn [load_cache_from];
    [discriminate|].
  destruct (PyText.split_on "," (strip l)) as [|key [|result [|extra fields]]];
    try (intros H; injection H as <-; reflexivity).
  destruct (String.eqb result "True"); [apply IH|].
  destruct (String.eqb result "False"); apply IH.
Qed.

Lemma split_on_has (sep : ascii) (text : string) :
  lacks sep text = false ->
  exists first second rest, PyText.split_on sep text = first :: second :: rest.
Proof.
  unfold lacks. induction text as [|c text IH]; [discriminate|].
  cbn [list_ascii_of_string forallb PyText.split_on].
  destruct (Ascii.eqb c sep); cbn [negb andb].
  - intros _. pose proof (TextFacts.split_on_nonempty sep text) as Hne.
    destruct (PyText.split_on sep text) as [|second rest]; [now elim Hne|].
    now exists EmptyString, second, rest.
  - intros H. destruct (IH H) as [first [second [rest Hsplit]]].
    rewrite Hsplit. now exists (String c first), second, rest.
Qed.

Lemma skip_spaces_app_comma (key tail : string) :
  lacks ","%char key = false ->
  PyText.skip_spaces (key ++ tail) = PyText.skip_spaces key ++ tail
  /\ lacks ","%char (PyText.skip_spaces key) = false.
Proof.
  unfold lacks. induction key as [|c key IH]; [discriminate|].
  cbn [append PyText.skip_spaces]. intros H.
  destruct (PyText.is_space c) eqn:Hc; [|now split].
  apply IH. cbn [list_ascii_of_string forallb] in H.
  destruct (Ascii.eqb_spec c ","%char) as [-> | Hne]; [discriminate | exact H].
Qed.

(** The line written for a key that holds a comma cannot be loaded. *)
Lemma comma_line_is_refused (key : string) (result : bool)
    (cache : list (string * bool)) (ignored : list string) :
  lacks ","%char key = false ->
  load_cache_from [key ++ "," ++ str_bool result ++ "
"] cache ignored
  = inl ValueError.
Proof.
  intros Hcomma. cbn [load_cache_from].
  destruct (skip_spaces_app_comma key ("," ++ str_bool result ++ "
") Hcomma) as [Hskip Hkept].
  assert (Hstrip : strip (key ++ "," ++ str_bool result ++ "
") = PyText.skip_spaces key ++ String "," (str_bool result)).
  { unfold strip. rewrite Hskip.
    rewrite rstrip_app_kept; [now destruct result|].
    destruct result; discriminate. }
  rewrite Hstrip, TextFacts.split_on_app.
  destruct (split_on_has _ _ Hkept) as [first [second [rest ->]]].
  destruct result; destruct rest; reflexivity.
Qed.


End CacheFile.

(** *** Checks that return, and a second check *)

Section Passes.

Context {World : Type}.
Variable programs : Programs World.

Local Abbreviation start_docker_container := (start_docker_container programs).
Local Abbreviation compare_command := (compare_command programs).
Local Abbreviation comparer_compare := (comparer_compare programs).
Local Abbreviation compare := (compare programs).
Local Abbreviation compare_versions_from := (compare_versions_from programs).
Local Abbreviation compare_versions := (compare_versions programs).

Lemma working_comparison_returns (self : Comparer) (a op b : string) (w : World) :
  (forall cmd w0, returncode (snd (subprocess_run programs cmd w0)) = 0%Z) ->
  exists w1 self1 r, comparer_compare self a op b w = (w1, self1, inr r).
Proof.
  intros Hworks. unfold comparer_compare.
  destruct (dict_get (a ++ " " ++ op ++ " " ++ b) (cache self)) as [r|];
    [now exists w, self, r|].
  unfold compare_command, start_docker_container.
  destruct (String.eqb (compare_method self) "run").
  - match goal with
    | |- context [subprocess_run programs ?cmd w] =>
        pose proof (Hworks cmd w) as Hrun;
        destruct (subprocess_run programs cmd w) as [w2 out]
    end.
    cbn [snd] in Hrun. rewrite Hrun. cbn [Z.eqb].
    unfold save_to_cache. eauto.
  - destruct (docker_container self) as [name|].
    + match goal with
      | |- context [subprocess_run programs ?cmd w] =>
          pose proof (Hworks cmd w) as Hrun;
          destruct (subprocess_run programs cmd w) as [w2 out]
      end.
      cbn [snd] in Hrun. rewrite Hrun. cbn [Z.eqb].
      unfold save_to_cache. eauto.
    + match goal with
      | |- context [subprocess_run programs ?cmd w] =>
          pose proof (Hworks cmd w) as Hstart;
          destruct (subprocess_run programs cmd w) as [w1 started]
      end.
      cbn [snd] in Hstart. rewrite Hstart. cbn [Z.eqb].
      match goal with
      | |- context [subprocess_run programs ?cmd w1] =>
          pose proof (Hworks cmd w1) as Hrun;
          destruct (subprocess_run programs cmd w1) as [w2 out]
      end.
      cbn [snd] in Hrun. rewrite Hrun. cbn [Z.eqb].
      unfold save_to_cache. eauto.
Qed.

Lemma check_returns_iff (select : string) (lines : list string) :
  (forall cmd w0, returncode (snd (subprocess_run programs cmd w0)) = 0%Z) ->
  forall flag out self w,
    (exists w' self' out' result,
        compare_versions_from lines select flag out self w
        = (w', self', out', inr result))
    <-> Forall (fun line => checkable line = true) lines.
Proof.
  intros Hworks.
  induction lines as [|line lines IH]; intros flag out self w;
    cbn [Alpine.compare_versions_from].
  - split; [constructor | now exists w, self, out, flag].
  - unfold checkable at 1. unfold is_comment.
    destruct (String.eqb (strip line) "" || startswith (strip line) "#"
              || startswith (strip line) "//") eqn:Hcomment.
    + rewrite IH. split.
      * intros Hrest. constructor; [|exact Hrest].
        unfold checkable, is_comment. now rewrite Hcomment.
      * intros Hall. now inversion Hall.
    + destruct (PyText.split_on " " (strip (strip line)))
        as [|v1 [|op [|v2 [|extra fields]]]] eqn:Hsplit;
        try (split;
             [intros [w' [self' [out' [result H]]]]; discriminate
             |intros Hall; inversion Hall as [|l ls Hline Hrest]; subst;
              unfold checkable, is_comment in Hline;
              rewrite Hcomment, Hsplit in Hline; discriminate]).
      unfold compare.
      destruct (contains ["<"; "="; ">"] op) eqn:Hop.
      * destruct (working_comparison_returns self v1 op v2 w Hworks)
          as [w1 [self1 [r Hcompare]]].
        rewrite Hcompare.
        assert (Hline : checkable line = true)
          by (unfold checkable, is_comment; now rewrite Hcomment, Hsplit).
        destruct (String.eqb select "failures" && r);
          [rewrite IH; split;
           [intros Hrest; now constructor | intros Hall; now inversion Hall]|].
        destruct (String.eqb select "successes" && negb r);
          rewrite IH; split;
          solve [intros Hrest; now constructor | intros Hall; now inversion Hall].
      * split.
        -- intros [w' [self' [out' [result H]]]]. discriminate.
        -- intros Hall. inversion Hall as [|l ls Hline Hrest]. subst.
           unfold checkable, is_comment in Hline.
           rewrite Hcomment, Hsplit, Hop in Hline. discriminate.
Qed.


Lemma extends_refl (self : Comparer) : extends self self.
Proof. now intros key r. Qed.

Lemma extends_trans (s1 s2 s3 : Comparer) :
  extends s1 s2 -> extends s2 s3 -> extends s1 s3.
Proof. intros H12 H23 key r H. now apply H23, H12. Qed.

Lemma compare_extends (self self1 : Comparer) (v1 op v2 : string) (w w1 : World)
    (o : exception + bool) :
  compare self v1 op v2 w = (w1, self1, o) -> extends self self1.
Proof.
  unfold compare. destruct (contains ["<"; "="; ">"] op).
  - intros H key r Hkey.
    exact (cache_kept programs _ _ _ _ _ _ _ _ _ _ H Hkey).
  - intros H. injection H as _ <- _. apply extends_refl.
Qed.

Lemma check_extends (select : string) (lines : list string) :
  forall flag out self w w' self' out' o,
    compare_versions_from lines select flag out self w = (w', self', out', o) ->
    extends self self'.
Proof.
  induction lines as [|line lines IH]; intros flag out self w w' self' out' o H;
    cbn [Alpine.compare_versions_from] in H.
  - injection H as _ <- _ _. apply extends_refl.
  - destruct (String.eqb (strip line) "" || startswith (strip line) "#"
              || startswith (strip line) "//").
    + exact (IH _ _ _ _ _ _ _ _ H).
    + destruct (PyText.split_on " " (strip (strip line)))
        as [|v1 [|op [|v2 [|extra fields]]]];
        try (injection H as _ <- _ _; apply extends_refl).
      destruct (compare self v1 op v2 w) as [[w1 self1] [e | r]] eqn:Hcompare;
        apply compare_extends in Hcompare.
      * injection H as _ <- _ _. exact Hcompare.
      * apply (extends_trans _ _ _ Hcompare).
        destruct (String.eqb select "failures" && r);
          [exact (IH _ _ _ _ _ _ _ _ H)|].
        destruct (String.eqb select "successes" && negb r);
          exact (IH _ _ _ _ _ _ _ _ H).
Qed.

Lemma second_check (select : string) (lines : list string) :
  forall flag out self w w' self' out' result,
    compare_versions_from lines select flag out self w
    = (w', self', out', inr result) ->
    forall again out2 w2,
      extends self' again ->
      exists added,
        out' = (out ++ added)%list
        /\ compare_versions_from lines select flag out2 again w2
           = (w2, again, (out2 ++ added)%list, inr result).
Proof.
  induction lines as [|line lines IH];
    intros flag out self w w' self' out' result H again out2 w2 Hext;
    cbn [Alpine.compare_versions_from] in H |- *.
  - injection H as _ _ <- <-. exists []. now rewrite !app_nil_r.
  - destruct (String.eqb (strip line) "" || startswith (strip line) "#"
              || startswith (strip line) "//").
    + destruct (is_unsupported_comparison (strip (uncomment (strip line)))).
      * destruct (IH _ _ _ _ _ _ _ _ H again
                    (out2 ++ [SkippedLine (strip (uncomment (strip line)))])%list
                    w2 Hext) as [added [Hout Hagain]].
        exists (SkippedLine (strip (uncomment (strip line))) :: added).
        rewrite Hout, Hagain, <- !app_assoc. split; reflexivity.
      * exact (IH _ _ _ _ _ _ _ _ H again out2 w2 Hext).
    + destruct (PyText.split_on " " (strip (strip line)))
        as [|v1 [|op [|v2 [|extra fields]]]]; try discriminate.
      unfold compare in H |- *.
      destruct (contains ["<"; "="; ">"] op); [|discriminate].
      destruct (comparer_compare self v1 op v2 w) as [[w1 self1] [e | r]]
        eqn:Hcompare; [discriminate|].
      apply (cache_filled programs) in Hcompare.
      assert (Hrest : extends self1 self').
      { destruct (String.eqb select "failures" && r);
          [exact (check_extends _ _ _ _ _ _ _ _ _ _ H)|].
        destruct (String.eqb select "successes" && negb r);
          exact (check_extends _ _ _ _ _ _ _ _ _ _ H). }
      rewrite (cache_hit programs again v1 op v2 w2 r
                 (Hext _ _ (Hrest _ _ Hcompare))).
      destruct (String.eqb select "failures" && r);
        [exact (IH _ _ _ _ _ _ _ _ H again out2 w2 Hext)|].
      destruct (String.eqb select "successes" && negb r);
        [exact (IH _ _ _ _ _ _ _ _ H again out2 w2 Hext)|].
      destruct (IH _ _ _ _ _ _ _ _ H again
                  (out2 ++ [ResultLine r (strip line)])%list w2 Hext)
        as [added [Hout Hagain]].
      exists (ResultLine r (strip line) :: added).
      rewrite Hout, Hagain, <- !app_assoc. split; reflexivity.
Qed.

(** X27: a check that returned can be repeated for nothing: run again over
    the same lines with the comparer it left, in any world, it runs no
    program, writes nothing, leaves the comparer as it is, and prints and
    returns what the first check did. *)
Theorem repeated_check_runs_nothing (lines : list string) (select : string)
    (self self' : Comparer) (w w' : World) (out : list printed) (result : bool) :
  compare_versions lines select self w = (w', self', out, inr result) ->
  forall w2, compare_versions lines select self' w2 = (w2, self', out, inr result).
Proof.
  unfold compare_versions. intros H w2.
  destruct (second_check select lines _ _ _ _ _ _ _ _ H self' [] w2
              (extends_refl self')) as [added [Hout Hagain]].
  cbn [app] in Hout, Hagain. now subst out.
Qed.

End Passes.

End AlpineFacts.

(** *** Runs of the check *)

Module AlpineRuns.

Import Alpine Fixtures.
Local Open Scope string_scope.

(** X17, witness: the comparison of [1.0] and [1.1], asked a second time. *)
Lemma second_question_runs_nothing :
  comparer_compare (apk "<") warmed "1.0" "<" "1.1" []
  = ([], warmed, inr true).
Proof.
  exact (proj1 (AlpineFacts.comparison_is_cached (apk "<") fresh warmed
                  "1.0" "<" "1.1" [] ["1.0 < 1.1,True
"] true eq_refl) []).
Defined.

(** X18, witness: a check whose only comparison fails. *)
Lemma failed_check_returns_false :
  exists flag,
    compare_versions (apk ">") ["1.0 < 1.1
"] "all" fresh []
    = (["1.0 < 1.1,False
"], {| cache := [("1.0 < 1.1", false)];
       alpine_version := "3.10";
       compare_method := "exec";
       docker_container := Some "alpine-3.10-container" |},
       [ResultLine false "1.0 < 1.1"], inr flag)
    /\ flag = false.
Proof.
  exists false. split; [reflexivity|].
  apply (AlpineFacts.compare_versions_returns_false (apk ">") ["1.0 < 1.1
"] "all" fresh
           {| cache := [("1.0 < 1.1", false)];
              alpine_version := "3.10";
              compare_method := "exec";
              docker_container := Some "alpine-3.10-container" |}
           [] ["1.0 < 1.1,False
"] [ResultLine false "1.0 < 1.1"] false).
  reflexivity.
Defined.

(** X19, witness: a passed and a failed comparison, with only the failures
    shown. *)
Lemma failures_only :
  compare_versions (apk "<") ["1.0 < 1.1
"; "# a note
"; "1.0 > 1.1
"] "failures" fresh []
  = (["1.0 < 1.1,True
"; "1.0 > 1.1,False
"], {| cache := [("1.0 < 1.1", true); ("1.0 > 1.1", false)];
       alpine_version := "3.10";
       compare_method := "exec";
       docker_container := Some "alpine-3.10-container" |},
       [ResultLine false "1.0 > 1.1"], inr false).
Proof.
  apply (AlpineFacts.selection_only_filters (apk "<") ["1.0 < 1.1
"; "# a note
"; "1.0 > 1.1
"] "failures" fresh
           {| cache := [("1.0 < 1.1", true); ("1.0 > 1.1", false)];
              alpine_version := "3.10";
              compare_method := "exec";
              docker_container := Some "alpine-3.10-container" |}
           [] ["1.0 < 1.1,True
"; "1.0 > 1.1,False
"] [ResultLine true "1.0 < 1.1"; ResultLine false "1.0 > 1.1"] (inr false)).
  reflexivity.
Defined.

(** X20, witness: a fixture of comments and a blank line. *)
Lemma comments_only :
  compare_versions no_docker ["# a comment
"; "
"; "  // another"] "all" fresh []
  = ([], fresh, [], inr false).
Proof.
  apply (AlpineFacts.comments_are_passed_over no_docker ["# a comment
"; "
"; "  // another"] "all" fresh []).
  repeat constructor.
Defined.

(** X23, witness: three versions, checked without docker against a cache
    that holds both comparisons. *)
Lemma three_versions_are_read_back :
  compare_versions no_docker (generate_version_compares ["1.0"; "1.1"; "1.2"])
    "all" filled []
  = ([], filled,
     [ResultLine true "1.0 < 1.1"; ResultLine false "1.1 < 1.2"], inr false).
Proof.
  apply (AlpineFacts.generated_fixture_is_read_back no_docker
           (fun a _ => String.eqb a "1.0") ["1.0"; "1.1"; "1.2"] filled []).
  - repeat constructor.
  - intros a b [H | [H | []]]; injection H as <- <-; reflexivity.
Defined.




(** X27, witness: the check of two comparisons, run a second time with
    the comparer the first run left. *)
Lemma second_check_of_two :
  compare_versions (apk "<") ["1.0 < 1.1
"; "1.0 > 1.1
"] "all"
    {| cache := [("1.0 < 1.1", true); ("1.0 > 1.1", false)];
       alpine_version := "3.10";
       compare_method := "exec";
       docker_container := Some "alpine-3.10-container" |} []
  = ([], {| cache := [("1.0 < 1.1", true); ("1.0 > 1.1", false)];
            alpine_version := "3.10";
            compare_method := "exec";
            docker_container := Some "alpine-3.10-container" |},
     [ResultLine true "1.0 < 1.1"; ResultLine false "1.0 > 1.1"], inr false).
Proof.
  apply (AlpineFacts.repeated_check_runs_nothing (apk "<") ["1.0 < 1.1
"; "1.0 > 1.1
"] "all" fresh
           {| cache := [("1.0 < 1.1", true); ("1.0 > 1.1", false)];
              alpine_version := "3.10";
              compare_method := "exec";
              docker_container := Some "alpine-3.10-container" |}
           [] ["1.0 < 1.1,True
"; "1.0 > 1.1,False
"] [ResultLine true "1.0 < 1.1"; ResultLine false "1.0 > 1.1"] false).
  reflexivity.
Defined.

End AlpineRuns.
